(** * The S3 backend of the CT log: a model of [internal/ctlog/s3.go]

    The backend wraps an S3 client.  [Fetch], [List], [Copy] and [Delete]
    are one request each; [Upload] prepares a body, then races a primary
    PUT against a hedge PUT that a second goroutine issues after 75 ms.

    Conventions of the model.
    - A Go [*string] or [*bool] is an [option]; a Go [error] value is
      [option error] with [None] for nil.
    - The S3 service, the SDK client and package compress/gzip are not
      part of the repository.  Replies of the service are inputs of the
      operations; the gzip writer and reader are section variables.
    - Requests handed to the SDK client are appended to [wire].
    - The two goroutines of [Upload] are a labelled transition system;
      an execution is a list of events, replayed by [uexec].
    - float64 values are IEEE 754 binary64 as specified by [SpecFloat].
    - Debug logging is left out: it reads the state and changes nothing
      that the operations return or send. *)

From Stdlib Require Import ZArith Lia Bool List.
From Stdlib Require Import Floats.SpecFloat.
From stdpp Require Import gmap strings list fin_maps.

(** ** Bytes, errors, float64 *)

Abbreviation bytes := (list Byte.byte).

(** Modelled from the spec: [fmtErrorf] is defined elsewhere in package
    ctlog; section 7 says errors are wrapped with the affected key.  An
    error built by it is kept symbolic: the format string, the arguments
    printed with %q, and, when the format ends in %w, the wrapped cause.
    [Remote] stands for an error value produced outside the package
    (SDK, gzip, io). *)
Inductive error : Type :=
| Remote (msg : string)
| Errorf (format : string) (args : list string)
| Wrapf (format : string) (args : list string) (cause : error).

Definition fmtErrorf (format : string) (args : list string) (cause : option error) : error :=
  match cause with
  | Some err => Wrapf format args err
  | None => Errorf format args
  end.

Abbreviation float64 := spec_float.

(** [float64(n)] for a Go int [n]: round to nearest even in binary64. *)
Definition float64_of_int (n : Z) : float64 := binary_normalize 53 1024 n 0 false.

(** [x / y] on float64. *)
Definition float64_div (x y : float64) : float64 := SFdiv 53 1024 x y.

(** [len(b)] as a Go int. *)
Definition len (b : bytes) : Z := Z.of_nat (length b).

(** ** Package strings

    [strings.HasPrefix] and [strings.TrimPrefix], after their Go
    definitions: [len(s) >= len(prefix) && s[:len(prefix)] == prefix] and
    [s[len(prefix):]] when the prefix is there. *)

Definition HasPrefix (s prefix : string) : bool :=
  (String.length prefix <=? String.length s)%nat
  && String.eqb (String.substring 0 (String.length prefix) s) prefix.

Definition TrimPrefix (s prefix : string) : string :=
  if HasPrefix s prefix
  then String.substring (String.length prefix) (String.length s - String.length prefix) s
  else s.

(** ** Requests and replies of the S3 API *)

Record PutObjectInput : Type := {
  put_Bucket : string;
  put_Key : string;
  put_Body : bytes;
  put_ContentLength : Z;
  put_ContentEncoding : option string;
  put_ContentType : option string;
  put_CacheControl : option string
}.

(** A PUT as it leaves the client: the input and the header values that
    the per-request option function appended to [APIOptions]. *)
Record PutRequest : Type := {
  req_input : PutObjectInput;
  req_headers : list (string * string)
}.

Record GetObjectInput : Type := { get_Bucket : string; get_Key : string }.

(** A response body is a stream: the bytes it yields, then end of file or
    a read error. *)
Record stream : Type := { s_bytes : bytes; s_err : option error }.

Record GetObjectOutput : Type := {
  out_Body : stream;
  out_ContentLength : option Z;
  out_ContentEncoding : option string
}.

Record ListObjectsV2Input : Type := { list_Bucket : string; list_Prefix : string }.

Record Object : Type := { obj_Key : option string }.

Record ListObjectsV2Output : Type := {
  out_Contents : list Object;
  out_IsTruncated : option bool
}.

Record CopyObjectInput : Type := {
  copy_Bucket : string;
  copy_CopySource : string;
  copy_Key : string
}.

Record DeleteObjectInput : Type := { del_Bucket : string; del_Key : string }.

Inductive request : Type :=
| ReqPut (r : PutRequest)
| ReqGet (i : GetObjectInput)
| ReqList (i : ListObjectsV2Input)
| ReqCopy (i : CopyObjectInput)
| ReqDelete (i : DeleteObjectInput).

(** ** The backend and the state it shares with its callers *)

(** Modelled from the spec: [UploadOptions] is declared elsewhere in
    package ctlog; section 3 lists its three fields. *)
Record UploadOptions : Type := {
  ContentType : string;
  Compress : bool;
  Immutable : bool
}.

(** The options of the S3 client that the code sets or reads. *)
Record s3Options : Type := { Region : string; BaseEndpoint : option string }.

Record S3Backend : Type := {
  client : s3Options;
  bucket : string;
  keyPrefix : string
}.

(** What an object of the bucket holds, as far as a GET returns it. *)
Record object : Type := {
  o_body : bytes;
  o_encoding : option string;
  o_type : option string;
  o_cache : option string
}.

(** The state outside a call: the requests sent so far, the bucket, and
    the four collectors the backend writes.  A counter holds the number of
    [Inc] calls; a summary holds its observations, oldest first. *)
Record world : Type := {
  wire : list request;
  objects : gmap string object;
  hedgeRequests : nat;
  hedgeWins : nat;
  uploadSize : list float64;
  compressRatio : list float64
}.

Definition send (r : request) (w : world) : world :=
  {| wire := wire w ++ [r]; objects := objects w;
     hedgeRequests := hedgeRequests w; hedgeWins := hedgeWins w;
     uploadSize := uploadSize w; compressRatio := compressRatio w |}.

Definition store (k : string) (o : object) (w : world) : world :=
  {| wire := wire w; objects := <[k := o]> (objects w);
     hedgeRequests := hedgeRequests w; hedgeWins := hedgeWins w;
     uploadSize := uploadSize w; compressRatio := compressRatio w |}.

Definition incHedgeRequests (w : world) : world :=
  {| wire := wire w; objects := objects w;
     hedgeRequests := S (hedgeRequests w); hedgeWins := hedgeWins w;
     uploadSize := uploadSize w; compressRatio := compressRatio w |}.

Definition incHedgeWins (w : world) : world :=
  {| wire := wire w; objects := objects w;
     hedgeRequests := hedgeRequests w; hedgeWins := S (hedgeWins w);
     uploadSize := uploadSize w; compressRatio := compressRatio w |}.

Definition observeUploadSize (v : float64) (w : world) : world :=
  {| wire := wire w; objects := objects w;
     hedgeRequests := hedgeRequests w; hedgeWins := hedgeWins w;
     uploadSize := uploadSize w ++ [v]; compressRatio := compressRatio w |}.

Definition observeCompressRatio (v : float64) (w : world) : world :=
  {| wire := wire w; objects := objects w;
     hedgeRequests := hedgeRequests w; hedgeWins := hedgeWins w;
     uploadSize := uploadSize w; compressRatio := compressRatio w ++ [v] |}.

(** [NewS3Backend]: [cfg] is the result of [config.LoadDefaultConfig],
    reduced to the base endpoint it resolved. *)
Definition NewS3Backend (cfg : error + option string)
    (region bucket0 endpoint keyPrefix0 : string) : error + S3Backend :=
  match cfg with
  | inl err =>
      inl (Wrapf "failed to load AWS config for S3 backend: %w" [] err)
  | inr cfgEndpoint =>
      inr {| client := {| Region := region;
                          BaseEndpoint := if String.eqb endpoint EmptyString
                                          then cfgEndpoint else Some endpoint |};
             bucket := bucket0;
             keyPrefix := keyPrefix0 |}
  end.

(** The collectors of a fresh backend and an empty bucket. *)
Definition world0 : world :=
  {| wire := []; objects := ∅; hedgeRequests := 0; hedgeWins := 0;
     uploadSize := []; compressRatio := [] |}.

(** ** Package compress/gzip and io, as the code uses them *)

(** [gzip.NewWriter(b)], [w.Write(data)], [w.Close()]: either call may
    fail; otherwise the buffer holds the compressed stream. *)
Inductive gzip_result : Type :=
| GzipWriteErr (err : error)
| GzipCloseErr (err : error)
| GzipClosed (out : bytes).

(** [gzip.NewReader(body)] followed by [io.ReadAll]: the header may be
    rejected, the read may fail, or the data comes out. *)
Inductive gunzip_result : Type :=
| GunzipHeaderErr (err : error)
| GunzipReadErr (err : error)
| GunzipData (data : bytes).

(** [io.ReadAll] on a response body. *)
Definition ReadAll (body : stream) : error + bytes :=
  match s_err body with
  | Some err => inl err
  | None => inr (s_bytes body)
  end.

Definition is_gzip (encoding : option string) : bool :=
  match encoding with
  | Some e => String.eqb e "gzip"
  | None => false
  end.

Section Backend.

Variable gzipWriter : bytes -> gzip_result.
Variable gzipReader : stream -> gunzip_result.

(** ** Fetch, List, Copy, Delete

    [remote] is the service answering the one request of the call. *)

Definition Fetch (s : S3Backend) (key : string)
    (remote : GetObjectInput -> error + GetObjectOutput) (w : world)
  : world * (error + bytes) :=
  let input := {| get_Bucket := bucket s; get_Key := keyPrefix s +:+ key |} in
  let w := send (ReqGet input) w in
  match remote input with
  | inl err => (w, inl (fmtErrorf "failed to fetch %q from S3: %w" [key] (Some err)))
  | inr out =>
      if is_gzip (out_ContentEncoding out) then
        match gzipReader (out_Body out) with
        | GunzipHeaderErr err =>
            (w, inl (fmtErrorf "failed to decompress %q from S3: %w" [key] (Some err)))
        | GunzipReadErr err =>
            (w, inl (fmtErrorf "failed to read %q from S3: %w" [key] (Some err)))
        | GunzipData data => (w, inr data)
        end
      else
        match ReadAll (out_Body out) with
        | inl err => (w, inl (fmtErrorf "failed to read %q from S3: %w" [key] (Some err)))
        | inr data => (w, inr data)
        end
  end.

(** The loop of [List] over [out.Contents], with [keys] built so far. *)
Fixpoint List_loop (s : S3Backend) (prefix : string) (contents : list Object)
    (keys : list string) : error + list string :=
  match contents with
  | [] => inr keys
  | object :: rest =>
      match obj_Key object with
      | None => inl (fmtErrorf "failed to list %q from S3: nil key" [prefix] None)
      | Some key =>
          if negb (HasPrefix key (keyPrefix s +:+ prefix)) then
            inl (fmtErrorf "failed to list %q from S3: strange response %q" [prefix; key] None)
          else List_loop s prefix rest (keys ++ [TrimPrefix key (keyPrefix s)])
      end
  end.

Definition List (s : S3Backend) (prefix : string)
    (remote : ListObjectsV2Input -> error + ListObjectsV2Output) (w : world)
  : world * (error + list string) :=
  let input := {| list_Bucket := bucket s; list_Prefix := keyPrefix s +:+ prefix |} in
  let w := send (ReqList input) w in
  match remote input with
  | inl err => (w, inl (fmtErrorf "failed to list %q from S3: %w" [prefix] (Some err)))
  | inr out =>
      match List_loop s prefix (out_Contents out) [] with
      | inl err => (w, inl err)
      | inr keys =>
          match out_IsTruncated out with
          | Some true =>
              (w, inl (fmtErrorf "failed to list %q from S3: response truncated" [prefix] None))
          | _ => (w, inr keys)
          end
      end
  end.


Definition Delete (s : S3Backend) (key : string)
    (remote : DeleteObjectInput -> option error) (w : world) : world * option error :=
  let input := {| del_Bucket := bucket s; del_Key := keyPrefix s +:+ key |} in
  let w := send (ReqDelete input) w in
  match remote input with
  | Some err => (w, Some (fmtErrorf "failed to delete %q from S3: %w" [key] (Some err)))
  | None => (w, None)
  end.

(** ** Upload: preparing the request *)

(** The variables that the closures of [Upload] capture, after the
    sequential prefix of the function has run. *)
Record frame : Type := {
  f_key : string;
  f_data : bytes;
  f_opts : option UploadOptions;
  f_contentType : option string;
  f_contentEncoding : option string;
  f_cacheControl : option string
}.

(** [opts != nil && opts.Field] *)
Definition guarded (field : UploadOptions -> bool) (opts : option UploadOptions) : bool :=
  match opts with
  | Some o => field o
  | None => false
  end.

(** Lines 117 to 139: content type, optional compression with its ratio
    observation, cache control.  A gzip failure returns before any
    request is made. *)
Definition Upload_prepare (s : S3Backend) (key : string) (data : bytes)
    (opts : option UploadOptions) (w : world) : world * (error + frame) :=
  let contentType :=
    match opts with
    | Some o => if String.eqb (ContentType o) EmptyString
                then Some "application/octet-stream" else Some (ContentType o)
    | None => Some "application/octet-stream"
    end in
  let cacheControl :=
    if guarded Immutable opts then Some "public, max-age=604800, immutable" else None in
  if guarded Compress opts then
    match gzipWriter data with
    | GzipWriteErr err => (w, inl (fmtErrorf "failed to compress %q: %w" [key] (Some err)))
    | GzipCloseErr err => (w, inl (fmtErrorf "failed to compress %q: %w" [key] (Some err)))
    | GzipClosed b =>
        (observeCompressRatio
           (float64_div (float64_of_int (len b)) (float64_of_int (len data))) w,
         inr {| f_key := key; f_data := b; f_opts := opts;
                f_contentType := contentType;
                f_contentEncoding := Some "gzip";
                f_cacheControl := cacheControl |})
    end
  else
    (w, inr {| f_key := key; f_data := data; f_opts := opts;
               f_contentType := contentType;
               f_contentEncoding := None;
               f_cacheControl := cacheControl |}).

Definition tigris : string := "https://fly.storage.tigris.dev".

Definition endpoint_is (e : string) (o : s3Options) : bool :=
  match BaseEndpoint o with
  | Some b => String.eqb b e
  | None => false
  end.

(** The closure [putObject] up to the point where the request leaves the
    client.  The option function reads [opts.Immutable] with no nil
    check: on a nil [opts] the call panics, which is [None] here. *)
Definition putObject (s : S3Backend) (f : frame) : option PutRequest :=
  let input := {| put_Bucket := bucket s;
                  put_Key := keyPrefix s +:+ f_key f;
                  put_Body := f_data f;
                  put_ContentLength := len (f_data f);
                  put_ContentEncoding := f_contentEncoding f;
                  put_ContentType := f_contentType f;
                  put_CacheControl := f_cacheControl f |} in
  match f_opts f with
  | None => None
  | Some opts =>
      Some {| req_input := input;
              req_headers :=
                if Immutable opts && endpoint_is tigris (client s)
                then [("If-Match", EmptyString)] else [] |}
  end.

(** ** Upload: the race between the primary PUT and the hedge *)

(** The object store is an external service; its replies are inputs.  A
    PUT either succeeds, and then the store holds the body and headers of
    the request under its key, or fails; a failed PUT may still have
    reached the store ([landed]). *)
Inductive put_reply : Type :=
| PutOK
| PutFailed (err : error) (landed : bool).

Definition reply_err (r : put_reply) : option error :=
  match r with
  | PutOK => None
  | PutFailed err _ => Some err
  end.

Definition reply_landed (r : put_reply) : bool :=
  match r with
  | PutOK => true
  | PutFailed _ landed => landed
  end.

Definition object_of (i : PutObjectInput) : object :=
  {| o_body := put_Body i; o_encoding := put_ContentEncoding i;
     o_type := put_ContentType i; o_cache := put_CacheControl i |}.

Definition settle (r : put_reply) (req : option PutRequest) (w : world) : world :=
  match req with
  | Some q => if reply_landed r then store (put_Key (req_input q)) (object_of (req_input q)) w else w
  | None => w
  end.

(** Where the calling goroutine stands. *)
Inductive main_pc : Type :=
| MCall                            (* about to call putObject, line 177 *)
| MWait                            (* primary PUT in flight *)
| MSelect (err : option error)     (* primary returned, at the select of line 178 *)
| MFinish (err : option error)     (* after the select, before line 188 *)
| MReturned (res : option error)   (* Upload has returned *)
| MPanic.                          (* nil dereference in the calling goroutine *)

(** Where the hedge goroutine stands. *)
Inductive hedge_pc : Type :=
| HStart                           (* spawned, timer not yet created *)
| HSelect                          (* at the select of line 167 *)
| HInc                             (* timer case taken, before line 170 *)
| HCall                            (* about to call putObject, line 171 *)
| HWait                            (* hedge PUT in flight *)
| HSend (err : option error)       (* about to send on hedgeErr, line 173 *)
| HCancel                          (* about to cancel, line 174 *)
| HExit                            (* goroutine finished *)
| HPanic.                          (* nil dereference in the goroutine: the process dies *)

Record ustate : Type := {
  u_frame : frame;
  u_main : main_pc;
  u_hedge : hedge_pc;
  u_cancelled : bool;                    (* ctx.Done() is closed *)
  u_hedgeErr : option (option error)     (* the one-slot channel *)
}.

Definition Upload_start (f : frame) : ustate :=
  {| u_frame := f; u_main := MCall; u_hedge := HStart;
     u_cancelled := false; u_hedgeErr := None |}.

Definition set_main (pc : main_pc) (u : ustate) : ustate :=
  {| u_frame := u_frame u; u_main := pc; u_hedge := u_hedge u;
     u_cancelled := u_cancelled u; u_hedgeErr := u_hedgeErr u |}.

Definition set_hedge (pc : hedge_pc) (u : ustate) : ustate :=
  {| u_frame := u_frame u; u_main := u_main u; u_hedge := pc;
     u_cancelled := u_cancelled u; u_hedgeErr := u_hedgeErr u |}.

Definition cancel (u : ustate) : ustate :=
  {| u_frame := u_frame u; u_main := u_main u; u_hedge := u_hedge u;
     u_cancelled := true; u_hedgeErr := u_hedgeErr u |}.

Definition set_hedgeErr (c : option (option error)) (u : ustate) : ustate :=
  {| u_frame := u_frame u; u_main := u_main u; u_hedge := u_hedge u;
     u_cancelled := u_cancelled u; u_hedgeErr := c |}.

(** The steps of one upload.  Replies of the store and the scheduling are
    the environment's choice. *)
Inductive event : Type :=
| MainCall                     (* the caller enters putObject *)
| MainReturn (r : put_reply)   (* the primary PUT returns *)
| MainSelect                   (* the non-blocking select of line 178 *)
| MainFinish                   (* lines 184 to 192 *)
| ParentCancel                 (* the caller's context is cancelled *)
| HedgeStart                   (* the goroutine creates its timer *)
| HedgeDone                    (* its select takes the ctx.Done() case *)
| HedgeTimer                   (* its select takes the timer case *)
| HedgeInc                     (* line 170 *)
| HedgeCall                    (* the goroutine enters putObject *)
| HedgeReturn (r : put_reply)  (* the hedge PUT returns *)
| HedgeSend                    (* line 173 *)
| HedgeCancel.                 (* line 174 *)

(** Lines 189 to 192. *)
Definition Upload_result (key : string) (err : option error) : option error :=
  match err with
  | Some e => Some (fmtErrorf "failed to upload %q to S3: %w" [key] (Some e))
  | None => None
  end.

Definition main_step (s : S3Backend) (ev : event) (w : world) (u : ustate)
  : option (world * ustate) :=
  match ev, u_main u with
  | MainCall, MCall =>
      match putObject s (u_frame u) with
      | Some q => Some (send (ReqPut q) w, set_main MWait u)
      | None => Some (w, set_main MPanic u)
      end
  | MainReturn r, MWait =>
      Some (settle r (putObject s (u_frame u)) w, set_main (MSelect (reply_err r)) u)
  | MainSelect, MSelect err =>
      match u_hedgeErr u with
      | Some herr => Some (incHedgeWins w, set_main (MFinish herr) (set_hedgeErr None u))
      | None => Some (w, set_main (MFinish err) (cancel u))
      end
  | MainFinish, MFinish err =>
      Some (observeUploadSize (float64_of_int (len (f_data (u_frame u)))) w,
            set_main (MReturned (Upload_result (f_key (u_frame u)) err)) u)
  | _, _ => None
  end.

Definition hedge_step (s : S3Backend) (ev : event) (w : world) (u : ustate)
  : option (world * ustate) :=
  match ev, u_hedge u with
  | HedgeStart, HStart => Some (w, set_hedge HSelect u)
  | HedgeDone, HSelect => if u_cancelled u then Some (w, set_hedge HExit u) else None
  | HedgeTimer, HSelect => Some (w, set_hedge HInc u)
  | HedgeInc, HInc => Some (incHedgeRequests w, set_hedge HCall u)
  | HedgeCall, HCall =>
      match putObject s (u_frame u) with
      | Some q => Some (send (ReqPut q) w, set_hedge HWait u)
      | None => Some (w, set_hedge HPanic u)
      end
  | HedgeReturn r, HWait =>
      Some (settle r (putObject s (u_frame u)) w, set_hedge (HSend (reply_err r)) u)
  | HedgeSend, HSend err =>
      match u_hedgeErr u with
      | None => Some (w, set_hedge HCancel (set_hedgeErr (Some err) u))
      | Some _ => None
      end
  | HedgeCancel, HCancel => Some (w, set_hedge HExit (cancel u))
  | _, _ => None
  end.

Definition crashed (u : ustate) : bool :=
  match u_hedge u with
  | HPanic => true
  | _ => false
  end.

Definition ustep (s : S3Backend) (ev : event) (st : world * ustate)
  : option (world * ustate) :=
  let '(w, u) := st in
  if crashed u then None
  else
    match ev with
    | MainCall | MainReturn _ | MainSelect | MainFinish => main_step s ev w u
    | ParentCancel => Some (w, cancel u)
    | _ => hedge_step s ev w u
    end.

(** Replaying an execution of one upload. *)
Definition uexec (s : S3Backend) (tr : list event) (st : world * ustate)
  : option (world * ustate) :=
  fold_left (fun acc ev => acc ≫= ustep s ev) tr (Some st).

(** [Upload] from the call to the state in which both goroutines exist. *)
Definition Upload (s : S3Backend) (key : string) (data : bytes)
    (opts : option UploadOptions) (w : world) : world * (error + ustate) :=
  match Upload_prepare s key data opts w with
  | (w', inl err) => (w', inl err)
  | (w', inr f) => (w', inr (Upload_start f))
  end.

(** ** Concurrent uploads on one backend *)






(** ** What an execution shows

    The replies that the two attempts received and which of them the
    select of line 178 adopted, read off the events. *)

Inductive attempt : Type := Primary | Hedge.

Record history : Type := {
  h_primary : option put_reply;   (* reply to the primary PUT *)
  h_hedge : option put_reply;     (* reply to the hedge PUT *)
  h_sent : bool;                  (* the hedge has sent on hedgeErr *)
  h_adopted : option attempt      (* the case the select of line 178 took *)
}.

Definition observe (h : history) (ev : event) : history :=
  match ev with
  | MainReturn r =>
      {| h_primary := Some r; h_hedge := h_hedge h; h_sent := h_sent h; h_adopted := h_adopted h |}
  | HedgeReturn r =>
      {| h_primary := h_primary h; h_hedge := Some r; h_sent := h_sent h; h_adopted := h_adopted h |}
  | HedgeSend =>
      {| h_primary := h_primary h; h_hedge := h_hedge h; h_sent := true; h_adopted := h_adopted h |}
  | MainSelect =>
      {| h_primary := h_primary h; h_hedge := h_hedge h; h_sent := h_sent h;
         h_adopted := Some (if h_sent h then Hedge else Primary) |}
  | _ => h
  end.

Definition history_of (tr : list event) : history :=
  fold_left observe tr
    {| h_primary := None; h_hedge := None; h_sent := false; h_adopted := None |}.

(** The reply of the adopted attempt. *)
Definition adopted_reply (h : history) : option put_reply :=
  match h_adopted h with
  | Some Primary => h_primary h
  | Some Hedge => h_hedge h
  | None => None
  end.

Definition count_event (p : event -> bool) (tr : list event) : nat :=
  length (filter (fun ev => p ev = true) tr).

Definition is_HedgeTimer (ev : event) : bool :=
  match ev with HedgeTimer => true | _ => false end.

Definition is_HedgeInc (ev : event) : bool :=
  match ev with HedgeInc => true | _ => false end.

Definition is_HedgeCall (ev : event) : bool :=
  match ev with HedgeCall => true | _ => false end.

End Backend.

(** * A gzip implementation and inputs to run the model on

    [gzipWriter] and [gzipReader] stand for whatever compress/gzip does.
    To run the operations on concrete inputs, [StoredGzip] implements the
    format itself: the ten-byte header of RFC 1952, one final stored
    block of RFC 1951, then CRC-32 and length.  Inputs longer than one
    stored block are refused by this writer. *)
Module StoredGzip.

Definition crc_step (c : N) : N :=
  if N.testbit c 0 then N.lxor (N.shiftr c 1) 0xEDB88320%N else N.shiftr c 1.

Definition crc_byte (c : N) (b : Byte.byte) : N :=
  N.iter 8 crc_step (N.lxor c (Byte.to_N b)).

Definition crc32 (data : bytes) : N :=
  N.lxor (fold_left crc_byte data 0xFFFFFFFF%N) 0xFFFFFFFF%N.

Definition byte_of (n : N) : Byte.byte :=
  match Byte.of_N (n mod 256)%N with
  | Some b => b
  | None => Byte.x00
  end.

Definition le16 (n : N) : bytes := [byte_of n; byte_of (n / 256)%N].

Definition le32 (n : N) : bytes :=
  [byte_of n; byte_of (n / 256)%N; byte_of (n / 65536)%N; byte_of (n / 16777216)%N].

Definition header : bytes :=
  map byte_of [0x1f; 0x8b; 8; 0; 0; 0; 0; 0; 0; 0xff]%N.

Definition same (a b : bytes) : bool :=
  bool_decide (map Byte.to_N a = map Byte.to_N b).

Definition writer (data : bytes) : gzip_result :=
  let n := N.of_nat (length data) in
  if (65535 <? n)%N then GzipWriteErr (Remote "stored block too long")
  else GzipClosed (header ++ [byte_of 1%N] ++ le16 n ++ le16 (N.lxor n 0xFFFF%N)
                     ++ data ++ le32 (crc32 data) ++ le32 n).

Definition reader (body : stream) : gunzip_result :=
  let b := s_bytes body in
  if negb (same (take 4 b) (take 4 header)) || (length b <? 10)%nat then
    GunzipHeaderErr (Remote "gzip: invalid header")
  else
    match drop 10 b with
    | final :: l0 :: l1 :: n0 :: n1 :: rest =>
        let n := (Byte.to_N l0 + 256 * Byte.to_N l1)%N in
        let data := take (N.to_nat n) rest in
        if same [final; n0; n1] ([byte_of 1%N] ++ le16 (N.lxor n 0xFFFF%N))
           && same (drop (N.to_nat n) rest) (le32 (crc32 data) ++ le32 n)
        then match s_err body with
             | Some err => GunzipReadErr err
             | None => GunzipData data
             end
        else GunzipReadErr (Remote "gzip: invalid checksum")
    | _ => GunzipReadErr (Remote "unexpected EOF")
    end.

End StoredGzip.

Definition hello : bytes := String.list_byte_of_string "hello".

(** A backend on the Tigris endpoint and one on another endpoint. *)
Definition tigrisBackend : S3Backend :=
  {| client := {| Region := "auto"; BaseEndpoint := Some tigris |};
     bucket := "ct"; keyPrefix := "log/" |}.

Definition otherBackend : S3Backend :=
  {| client := {| Region := "us-east-1"; BaseEndpoint := None |};
     bucket := "ct"; keyPrefix := "log/" |}.

Definition plain : UploadOptions :=
  {| ContentType := EmptyString; Compress := false; Immutable := false |}.

Definition compressed : UploadOptions :=
  {| ContentType := "text/plain"; Compress := true; Immutable := false |}.

Definition immutable : UploadOptions :=
  {| ContentType := EmptyString; Compress := false; Immutable := true |}.

(** The hedge starts, fails and delivers its error while the primary PUT
    is still in flight; the primary PUT then succeeds. *)
Definition hedge_fails_first : list event :=
  [MainCall; HedgeStart; HedgeTimer; HedgeInc; HedgeCall;
   HedgeReturn (PutFailed (Remote "412 Precondition Failed") false);
   HedgeSend; MainReturn PutOK; MainSelect; MainFinish].

(** The hedge answers first and wins (scenario 4 of the spec). *)
Definition hedge_wins : list event :=
  [MainCall; HedgeStart; HedgeTimer; HedgeInc; HedgeCall;
   HedgeReturn PutOK; HedgeSend; HedgeCancel;
   MainReturn (PutFailed (Remote "context canceled") false); MainSelect; MainFinish].

(** The primary PUT returns before the timer (scenario 5 of the spec). *)
Definition primary_wins : list event :=
  [MainCall; HedgeStart; MainReturn PutOK; MainSelect; HedgeDone; MainFinish].


(** * Vocabulary of the properties *)

(** An entry that [List] refuses: no key, or a key outside
    [keyPrefix + prefix]. *)
Definition strange (s : S3Backend) (prefix : string) (o : Object) : Prop :=
  match obj_Key o with
  | None => True
  | Some key => HasPrefix key (keyPrefix s +:+ prefix) = false
  end.

(** *** The race

    What the two program points and the channel say about the history. *)

Definition main_inv (h : history) (u : ustate) : Prop :=
  match u_main u with
  | MCall | MWait | MPanic => h_adopted h = None
  | MSelect err =>
      h_adopted h = None /\ exists r, h_primary h = Some r /\ reply_err r = err
  | MFinish err => exists r, adopted_reply h = Some r /\ reply_err r = err
  | MReturned res =>
      exists r, adopted_reply h = Some r
                /\ res = Upload_result (f_key (u_frame u)) (reply_err r)
  end.

Definition hedge_inv (h : history) (u : ustate) : Prop :=
  match u_hedge u with
  | HStart | HSelect | HInc | HCall | HWait | HPanic =>
      h_sent h = false /\ u_hedgeErr u = None
  | HSend err =>
      h_sent h = false /\ u_hedgeErr u = None
      /\ exists r, h_hedge h = Some r /\ reply_err r = err
  | HCancel | HExit =>
      if h_sent h then
        exists r, h_hedge h = Some r
                  /\ u_hedgeErr u = match h_adopted h with
                                    | Some Hedge => None
                                    | _ => Some (reply_err r)
                                    end
      else u_hedgeErr u = None
  end.

Definition race_inv (h : history) (u : ustate) : Prop :=
  main_inv h u /\ hedge_inv h u /\ (h_adopted h = Some Hedge -> h_sent h = true).

(** The two attempts of an execution, and their success. *)
Definition primary_succeeded (tr : list event) : Prop :=
  h_primary (history_of tr) = Some PutOK.

Definition hedge_succeeded (tr : list event) : Prop :=
  h_hedge (history_of tr) = Some PutOK.


(** *** The counters

    How often the hedge goroutine took the timer case, ran line 170 and
    entered putObject, by program point. *)
Definition launched_inv (tr : list event) (u : ustate) : Prop :=
  let t := count_event is_HedgeTimer tr in
  let i := count_event is_HedgeInc tr in
  let c := count_event is_HedgeCall tr in
  match u_hedge u with
  | HStart | HSelect => t = 0 /\ i = 0 /\ c = 0
  | HInc => t = 1 /\ i = 0 /\ c = 0
  | HCall => t = 1 /\ i = 1 /\ c = 0
  | HWait | HSend _ | HCancel | HPanic => t = 1 /\ i = 1 /\ c = 1
  | HExit => i = t /\ c = t /\ t <= 1 /\ (h_sent (history_of tr) = true -> t = 1)
  end.

(** What an execution has added to the two counters. *)
Definition won (tr : list event) : nat :=
  match h_adopted (history_of tr) with
  | Some Hedge => 1
  | _ => 0
  end.

Definition counters_inv (w0 : world) (tr : list event) (w : world) : Prop :=
  hedgeRequests w = hedgeRequests w0 + count_event is_HedgeInc tr
  /\ hedgeWins w = hedgeWins w0 + won tr.


(** *** Requests, bucket and summaries *)

Definition is_MainCall (ev : event) : bool :=
  match ev with MainCall => true | _ => false end.

(** How often an execution entered putObject. *)
Definition puts_started (tr : list event) : nat :=
  count_event is_MainCall tr + count_event is_HedgeCall tr.

Definition landed (r : option put_reply) : bool :=
  match r with
  | Some r => reply_landed r
  | None => false
  end.

(** What an execution from [w0] with frame [f] has done to the world. *)
Definition effects_inv (s : S3Backend) (f : frame) (w0 : world)
    (tr : list event) (w : world) (u : ustate) : Prop :=
  u_frame u = f
  /\ match putObject s f with
     | Some q =>
         wire w = wire w0 ++ replicate (puts_started tr) (ReqPut q)
         /\ (landed (h_primary (history_of tr)) || landed (h_hedge (history_of tr)) = true ->
             objects w !! put_Key (req_input q) = Some (object_of (req_input q)))
     | None =>
         wire w = wire w0 /\ objects w = objects w0
         /\ match u_main u with MCall | MPanic => True | _ => False end
         /\ match u_hedge u with HWait | HSend _ | HCancel => False | _ => True end
         /\ count_event is_HedgeCall tr = match u_hedge u with HPanic => 1 | _ => 0 end
     end
  /\ uploadSize w = uploadSize w0
                    ++ match u_main u with
                       | MReturned _ => [float64_of_int (len (f_data f))]
                       | _ => []
                       end
  /\ compressRatio w = compressRatio w0
  /\ count_event is_MainCall tr = match u_main u with MCall => 0 | _ => 1 end.

(** The content type and encoding that [Upload] chooses. *)
Definition chosen_contentType (opts : option UploadOptions) : string :=
  match opts with
  | Some o => if String.eqb (ContentType o) EmptyString
              then "application/octet-stream" else ContentType o
  | None => "application/octet-stream"
  end.

(** A store that answers a GET with the body and headers it holds under
    the key, as section 8 of the spec assumes for the round trips. *)
Definition store_get (objs : gmap string object) (i : GetObjectInput)
  : error + GetObjectOutput :=
  match objs !! get_Key i with
  | Some o => inr {| out_Body := {| s_bytes := o_body o; s_err := None |};
                     out_ContentLength := Some (len (o_body o));
                     out_ContentEncoding := o_encoding o |}
  | None => inl (Remote "NoSuchKey")
  end.

(** Replies of a LIST to run [List] on. *)
Definition truncated_listing (i : ListObjectsV2Input) : error + ListObjectsV2Output :=
  inr {| out_Contents := [ {| obj_Key := Some "log/tile/0" |};
                           {| obj_Key := Some "log/tile/1" |} ];
         out_IsTruncated := Some true |}.

Definition complete_listing (i : ListObjectsV2Input) : error + ListObjectsV2Output :=
  inr {| out_Contents := [ {| obj_Key := Some "log/tile/0" |};
                           {| obj_Key := Some "log/tile/1" |} ];
         out_IsTruncated := Some false |}.

(** A GET that answers with upper-case "GZIP" as content encoding. *)
Definition shouting_store (body : bytes) (i : GetObjectInput) : error + GetObjectOutput :=
  inr {| out_Body := {| s_bytes := body; s_err := None |};
         out_ContentLength := Some (len body);
         out_ContentEncoding := Some "GZIP" |}.

(** A gzip writer whose [Close] fails. *)
Definition failing_gzip (data : bytes) : gzip_result :=
  GzipCloseErr (Remote "short write").

(** *** Running a goroutine to its end

    The events that take the caller from a program point to its return,
    and the hedge goroutine to its exit, when a PUT in flight is answered
    by [r]. *)
Definition main_finish (pc : main_pc) (r : put_reply) : list event :=
  match pc with
  | MCall => [MainCall; MainReturn r; MainSelect; MainFinish]
  | MWait => [MainReturn r; MainSelect; MainFinish]
  | MSelect _ => [MainSelect; MainFinish]
  | MFinish _ => [MainFinish]
  | MReturned _ | MPanic => []
  end.

Definition hedge_finish (pc : hedge_pc) (r : put_reply) : list event :=
  match pc with
  | HStart => [HedgeStart; HedgeDone]
  | HSelect => [HedgeDone]
  | HInc => [HedgeInc; HedgeCall; HedgeReturn r; HedgeSend; HedgeCancel]
  | HCall => [HedgeCall; HedgeReturn r; HedgeSend; HedgeCancel]
  | HWait => [HedgeReturn r; HedgeSend; HedgeCancel]
  | HSend _ => [HedgeSend; HedgeCancel]
  | HCancel => [HedgeCancel]
  | HExit | HPanic => []
  end.

(** The scope is cancelled once the hedge goroutine has exited, and once
    the caller is past its select unless the hedge is still under way. *)
Definition cancel_inv (u : ustate) : Prop :=
  (u_hedge u = HExit -> u_cancelled u = true)
  /\ match u_main u with
     | MFinish _ | MReturned _ =>
         match u_hedge u with
         | HStart | HSelect => u_cancelled u = true
         | _ => True
         end
     | _ => True
     end.
(** * Properties *)

(** ** Strings *)

Lemma substring_prefix_app (p t : string) :
  String.substring 0 (String.length p) (p +:+ t) = p.
Proof.
  induction p as [|c p IH]; simpl.
  - destruct t; reflexivity.
  - now rewrite IH.
Qed.

Lemma substring_all (t : string) : String.substring 0 (String.length t) t = t.
Proof. induction t as [|c t IH]; simpl; [reflexivity | now rewrite IH]. Qed.

Lemma substring_suffix_app (p t : string) :
  String.substring (String.length p) (String.length (p +:+ t) - String.length p) (p +:+ t) = t.
Proof.
  induction p as [|c p IH]; simpl.
  - rewrite Nat.sub_0_r. apply substring_all.
  - exact IH.
Qed.

Lemma HasPrefix_app (p t : string) : HasPrefix (p +:+ t) p = true.
Proof.
  unfold HasPrefix. rewrite substring_prefix_app, String.eqb_refl, andb_true_r.
  apply Nat.leb_le. induction p; simpl; lia.
Qed.

Lemma TrimPrefix_app (p t : string) : TrimPrefix (p +:+ t) p = t.
Proof. unfold TrimPrefix. rewrite HasPrefix_app. apply substring_suffix_app. Qed.

Lemma substring_split (p s : string) :
  String.substring 0 (String.length p) s = p ->
  s = p +:+ String.substring (String.length p) (String.length s - String.length p) s.
Proof.
  revert s. induction p as [|c p IH]; intros s H; simpl in *.
  - rewrite Nat.sub_0_r. symmetry. apply substring_all.
  - destruct s as [|d s]; [discriminate |].
    injection H as -> H. change (String c s = String c (p +:+ String.substring (String.length p) (String.length s - String.length p) s)). f_equal. now apply IH.
Qed.

Lemma HasPrefix_inv (s p : string) :
  HasPrefix s p = true -> s = p +:+ TrimPrefix s p.
Proof.
  intros H. unfold TrimPrefix. rewrite H.
  unfold HasPrefix in H. apply andb_true_iff in H as [_ H].
  apply String.eqb_eq in H. now apply substring_split.
Qed.

Lemma app_string_assoc (a b c : string) : (a +:+ b) +:+ c = a +:+ (b +:+ c).
Proof.
  induction a as [|x a IH]; [reflexivity |].
  change (String x ((a +:+ b) +:+ c) = String x (a +:+ (b +:+ c))).
  now rewrite IH.
Qed.

(** A wire key that carries [keyPrefix + prefix] is [keyPrefix] followed
    by a key that carries [prefix]. *)
Lemma TrimPrefix_keeps_prefix (key kp prefix : string) :
  HasPrefix key (kp +:+ prefix) = true ->
  key = kp +:+ TrimPrefix key kp /\ HasPrefix (TrimPrefix key kp) prefix = true.
Proof.
  intros H. apply HasPrefix_inv in H.
  rewrite app_string_assoc in H.
  assert (Ht : TrimPrefix key kp = prefix +:+ TrimPrefix key (kp +:+ prefix)).
  { rewrite H at 1. apply TrimPrefix_app. }
  split.
  - rewrite Ht. exact H.
  - rewrite Ht. apply HasPrefix_app.
Qed.

(** ** List *)

Section ListProperties.

Variables (s : S3Backend) (prefix : string).

Lemma List_loop_strange (contents : list Object) (keys : list string) :
  Exists (strange s prefix) contents -> exists err, List_loop s prefix contents keys = inl err.
Proof.
  intros H. revert keys.
  induction H as [o rest Ho | o rest _ IH]; intros keys; simpl;
    unfold strange in *.
  - destruct (obj_Key o) as [key|]; [rewrite Ho; simpl |]; eauto.
  - destruct (obj_Key o) as [key|]; [| eauto].
    destruct (HasPrefix key _); simpl; eauto.
Qed.

Lemma List_loop_keys (contents : list Object) (acc keys : list string) :
  List_loop s prefix contents acc = inr keys ->
  exists new,
    keys = acc ++ new
    /\ map (String.append (keyPrefix s)) new = omap obj_Key contents
    /\ Forall (fun k => HasPrefix k prefix = true) new.
Proof.
  revert acc. induction contents as [|o rest IH]; intros acc H; simpl in H.
  - exists []. injection H as <-. rewrite app_nil_r. auto.
  - destruct (obj_Key o) as [key|] eqn:Hk; [| discriminate].
    destruct (HasPrefix key (keyPrefix s +:+ prefix)) eqn:Hp; [| discriminate].
    simpl in H. apply IH in H as (new & -> & Hwire & Hall).
    apply TrimPrefix_keeps_prefix in Hp as [Hkey Hpre].
    exists (TrimPrefix key (keyPrefix s) :: new). split; [| split].
    + now rewrite <- app_assoc.
    + simpl. rewrite Hk. simpl. now rewrite <- Hkey, Hwire.
    + now constructor.
Qed.


End ListProperties.

(** ** Executions of one upload *)

Lemma uexec_snoc (s : S3Backend) (tr : list event) (ev : event) (st : world * ustate) :
  uexec s (tr ++ [ev]) st = uexec s tr st ≫= ustep s ev.
Proof. unfold uexec. now rewrite fold_left_app. Qed.

Lemma history_snoc (tr : list event) (ev : event) :
  history_of (tr ++ [ev]) = observe (history_of tr) ev.
Proof. unfold history_of. now rewrite fold_left_app. Qed.

Lemma count_event_snoc (p : event -> bool) (tr : list event) (ev : event) :
  count_event p (tr ++ [ev]) = count_event p tr + (if p ev then 1 else 0).
Proof.
  unfold count_event. rewrite filter_app, length_app. f_equal.
  rewrite filter_cons, filter_nil. destruct (p ev); simpl.
  - now destruct (decide (true = true)).
  - now destruct (decide (false = true)).
Qed.

(** Induction along an execution, from the first event to the last. *)
Lemma uexec_invariant (s : S3Backend) (st0 : world * ustate)
    (P : list event -> world * ustate -> Prop) :
  P [] st0 ->
  (forall tr st ev st',
      uexec s tr st0 = Some st -> P tr st -> ustep s ev st = Some st' ->
      P (tr ++ [ev]) st') ->
  forall tr st, uexec s tr st0 = Some st -> P tr st.
Proof.
  intros Hbase Hstep tr.
  induction tr as [|ev tr IH] using rev_ind; intros st Hrun.
  - injection Hrun as <-. exact Hbase.
  - rewrite uexec_snoc in Hrun.
    destruct (uexec s tr st0) as [st1|] eqn:Hpre; [| discriminate].
    simpl in Hrun. eapply Hstep; eauto.
Qed.

#[local] Arguments ustep : simpl never.

(** Case analysis on one step: which event, from which program point. *)
Ltac step_cases H :=
  unfold ustep, main_step, hedge_step in H;
  repeat case_match; simplify_eq; simpl in *.

Lemma ustep_frame (s : S3Backend) (ev : event) (w w' : world) (u u' : ustate) :
  ustep s ev (w, u) = Some (w', u') -> u_frame u' = u_frame u.
Proof. intros H. step_cases H; reflexivity. Qed.

Lemma uexec_frame (s : S3Backend) (tr : list event) (w0 w : world) (u0 u : ustate) :
  uexec s tr (w0, u0) = Some (w, u) -> u_frame u = u_frame u0.
Proof.
  intros H.
  apply (uexec_invariant s (w0, u0) (fun _ st => u_frame st.2 = u_frame u0)) in H;
    [exact H | reflexivity |].
  intros tr' [w1 u1] ev [w2 u2] _ IH Hs. simpl in *.
  apply ustep_frame in Hs. congruence.
Qed.

Ltac break_hyps :=
  repeat match goal with
         | H : _ /\ _ |- _ => destruct H
         | H : exists _, _ |- _ => destruct H
         end.

Lemma race_inv_step (s : S3Backend) (tr : list event) (ev : event)
    (w w' : world) (u u' : ustate) :
  race_inv (history_of tr) u ->
  ustep s ev (w, u) = Some (w', u') ->
  race_inv (history_of (tr ++ [ev])) u'.
Proof.
  intros Hinv Hs. rewrite history_snoc.
  destruct (history_of tr) as [hp hh hs ha].
  destruct u as [f m h c ch].
  step_cases Hs;
    destruct Hinv as (Hm & Hh & Ha);
    unfold race_inv, main_inv, hedge_inv, adopted_reply in *; simpl in *.
  all: break_hyps; simplify_eq; simpl in *.
  all: repeat first [progress break_hyps | progress simplify_eq | case_match];
    simpl in *.
  all: try match goal with H : ?a = ?a -> _ |- _ => specialize (H eq_refl) end.
  all: solve [repeat split; eauto; try congruence; intros; discriminate].
Qed.

Lemma race_inv_start (f : frame) : race_inv (history_of []) (Upload_start f).
Proof. repeat split; intros; discriminate. Qed.

Lemma uexec_race_inv (s : S3Backend) (f : frame) (tr : list event)
    (w0 w : world) (u : ustate) :
  uexec s tr (w0, Upload_start f) = Some (w, u) -> race_inv (history_of tr) u.
Proof.
  intros H.
  apply (uexec_invariant s _ (fun tr st => race_inv (history_of tr) st.2)) in H;
    [exact H | apply race_inv_start |].
  intros tr' [w1 u1] ev [w2 u2] _ IH Hs. simpl in *.
  eapply race_inv_step; eauto.
Qed.


(** *** The prepared request *)

Lemma Upload_inr (gzipWriter : bytes -> gzip_result) (s : S3Backend) (key : string)
    (data : bytes) (opts : option UploadOptions) (w0 w1 : world) (u0 : ustate) :
  Upload gzipWriter s key data opts w0 = (w1, inr u0) ->
  exists f,
    Upload_prepare gzipWriter s key data opts w0 = (w1, inr f)
    /\ u0 = Upload_start f /\ f_key f = key /\ f_opts f = opts.
Proof.
  unfold Upload. destruct (Upload_prepare _ _ _ _ _ _) as [w' [err|f]] eqn:Hp;
    intros H; simplify_eq.
  exists f. repeat split.
  all: unfold Upload_prepare in Hp; repeat case_match; simplify_eq; reflexivity.
Qed.

Lemma Upload_result_nil (key : string) (r : put_reply) :
  Upload_result key (reply_err r) = None <-> r = PutOK.
Proof. destruct r; simpl; split; intros H; congruence. Qed.

(** ** Running the model *)

Example crc32_hello : StoredGzip.crc32 hello = 0x3610a686%N.
Proof. vm_compute. reflexivity. Qed.

Example gzip_hello_roundtrip :
  exists z, StoredGzip.writer hello = GzipClosed z
            /\ length z = 28
            /\ StoredGzip.reader {| s_bytes := z; s_err := None |} = GunzipData hello.
Proof. eexists. split; [reflexivity |]. split; vm_compute; reflexivity. Qed.

Example NewS3Backend_tigris :
  NewS3Backend (inr None) "auto" "ct" tigris "log/" = inr tigrisBackend.
Proof. reflexivity. Qed.

Example hedge_wins_run :
  exists w u,
    uexec tigrisBackend hedge_wins
      (world0, Upload_start (Build_frame "abc" hello (Some plain)
                               (Some "application/octet-stream") None None))
    = Some (w, u)
    /\ u_main u = MReturned None
    /\ hedgeRequests w = 1 /\ hedgeWins w = 1.
Proof. eexists _, _. split; [vm_compute; reflexivity |]. auto. Qed.

(** ** The result of an upload *)

(** C1, as stated, does not hold: an execution in which the primary PUT
    succeeds and [Upload] still returns an error.  The hedge failed and
    delivered its error before the primary PUT returned, and the select of
    line 178 replaces the primary result by the delivered one. *)
Lemma Upload_success_iff_some_put_ok_fails :
  ~ (forall gzipWriter s key data opts w0 w1 u0 tr w u res,
        Upload gzipWriter s key data opts w0 = (w1, inr u0) ->
        uexec s tr (w1, u0) = Some (w, u) ->
        u_main u = MReturned res ->
        (res = None <-> primary_succeeded tr \/ hedge_succeeded tr)).
Proof.
  intros claim.
  assert (Hrun : exists w u err,
             uexec tigrisBackend hedge_fails_first
               (world0, Upload_start (Build_frame "abc" hello (Some immutable)
                                        (Some "application/octet-stream") None
                                        (Some "public, max-age=604800, immutable")))
             = Some (w, u)
             /\ u_main u = MReturned (Some err)).
  { eexists _, _, _. split; vm_compute; reflexivity. }
  destruct Hrun as (w & u & err & Hrun & Hres).
  specialize (claim StoredGzip.writer tigrisBackend "abc" hello (Some immutable)
                world0 _ _ hedge_fails_first w u (Some err) eq_refl Hrun Hres).
  destruct claim as [_ claim].
  discriminate claim. left. reflexivity.
Qed.

(** C1, amended: [Upload] returns the result of the adopted attempt.  The
    adopted attempt is the hedge when the hedge has sent its result on
    the channel before the select of line 178 runs, and the primary
    otherwise.  So success means the adopted PUT succeeded, a successful
    return implies that one of the two PUTs succeeded, and a successful
    primary PUT gives success when it is the adopted one. *)
Theorem Upload_returns_adopted_result
    (gzipWriter : bytes -> gzip_result) (s : S3Backend) (key : string) (data : bytes)
    (opts : option UploadOptions) (w0 w1 w : world) (u0 u : ustate)
    (tr : list event) (res : option error) :
  Upload gzipWriter s key data opts w0 = (w1, inr u0) ->
  uexec s tr (w1, u0) = Some (w, u) ->
  u_main u = MReturned res ->
  exists r,
    adopted_reply (history_of tr) = Some r
    /\ res = Upload_result key (reply_err r)
    /\ (res = None <-> r = PutOK)
    /\ (res = None -> primary_succeeded tr \/ hedge_succeeded tr)
    /\ (primary_succeeded tr -> h_adopted (history_of tr) = Some Primary -> res = None).
Proof.
  intros Hup Hrun Hret.
  apply Upload_inr in Hup as (f & _ & -> & Hkey & _).
  pose proof (uexec_frame _ _ _ _ _ _ Hrun) as Hf. simpl in Hf.
  apply uexec_race_inv in Hrun as (Hm & _ & _).
  unfold main_inv in Hm. rewrite Hret in Hm.
  destruct Hm as (r & Had & ->). rewrite Hf, Hkey.
  exists r. split; [exact Had |]. split; [reflexivity |].
  split; [apply Upload_result_nil |].
  unfold primary_succeeded, hedge_succeeded, adopted_reply in *.
  split.
  - intros Hnil. apply Upload_result_nil in Hnil as ->.
    destruct (h_adopted (history_of tr)) as [[]|]; [left | right | discriminate];
      exact Had.
  - intros Hp Ha. rewrite Ha, Hp in Had. injection Had as <-. reflexivity.
Qed.

Lemma Upload_returns_adopted_result_witness :
  exists r,
    adopted_reply (history_of primary_wins) = Some r
    /\ None = Upload_result "abc" (reply_err r)
    /\ (@None error = None <-> r = PutOK)
    /\ (@None error = None -> primary_succeeded primary_wins \/ hedge_succeeded primary_wins)
    /\ (primary_succeeded primary_wins ->
        h_adopted (history_of primary_wins) = Some Primary -> @None error = None).
Proof.
  eapply (Upload_returns_adopted_result StoredGzip.writer tigrisBackend "abc" hello
            (Some plain) world0).
  - reflexivity.
  - vm_compute. reflexivity.
  - reflexivity.
Defined.

(** ** The hedge counters *)

Lemma settle_hedgeRequests (r : put_reply) (q : option PutRequest) (w : world) :
  hedgeRequests (settle r q w) = hedgeRequests w.
Proof. unfold settle. repeat case_match; reflexivity. Qed.

Lemma settle_hedgeWins (r : put_reply) (q : option PutRequest) (w : world) :
  hedgeWins (settle r q w) = hedgeWins w.
Proof. unfold settle. repeat case_match; reflexivity. Qed.

Lemma settle_wire (r : put_reply) (q : option PutRequest) (w : world) :
  wire (settle r q w) = wire w.
Proof. unfold settle. repeat case_match; reflexivity. Qed.

Lemma settle_uploadSize (r : put_reply) (q : option PutRequest) (w : world) :
  uploadSize (settle r q w) = uploadSize w.
Proof. unfold settle. repeat case_match; reflexivity. Qed.

Lemma settle_compressRatio (r : put_reply) (q : option PutRequest) (w : world) :
  compressRatio (settle r q w) = compressRatio w.
Proof. unfold settle. repeat case_match; reflexivity. Qed.

Lemma launched_inv_step (s : S3Backend) (tr : list event) (ev : event)
    (w w' : world) (u u' : ustate) :
  hedge_inv (history_of tr) u ->
  launched_inv tr u ->
  ustep s ev (w, u) = Some (w', u') ->
  launched_inv (tr ++ [ev]) u'.
Proof.
  intros Hh Hl Hs. destruct u as [f m h c ch].
  step_cases Hs; simplify_eq.
  all: unfold launched_inv, hedge_inv in *; rewrite !count_event_snoc, history_snoc.
  all: simpl in *; rewrite ?Nat.add_0_r.
  all: try assumption.
  all: destruct (history_of tr) as [hp hh hs ha]; simpl in *.
  all: try assumption.
  all: try solve [break_hyps; repeat split; try lia; congruence].
  all: try solve [destruct h; simpl in *; assumption].
Qed.

Lemma uexec_launched_inv (s : S3Backend) (f : frame) (tr : list event)
    (w0 w : world) (u : ustate) :
  uexec s tr (w0, Upload_start f) = Some (w, u) -> launched_inv tr u.
Proof.
  intros H.
  apply (uexec_invariant s _
           (fun tr st => race_inv (history_of tr) st.2 /\ launched_inv tr st.2)) in H;
    [apply H | split; [apply race_inv_start | repeat split] |].
  intros tr' [w1 u1] ev [w2 u2] _ [IH1 IH2] Hs. simpl in *. split.
  - eapply race_inv_step; eauto.
  - eapply launched_inv_step; eauto. apply IH1.
Qed.

Lemma counters_inv_step (s : S3Backend) (w0 : world) (tr : list event) (ev : event)
    (w w' : world) (u u' : ustate) :
  race_inv (history_of tr) u ->
  counters_inv w0 tr w ->
  ustep s ev (w, u) = Some (w', u') ->
  counters_inv w0 (tr ++ [ev]) w'.
Proof.
  intros Hrace Hc Hs. destruct u as [f m h c ch].
  step_cases Hs; simplify_eq.
  all: destruct Hc as [Hr Hw]; unfold counters_inv, won in *.
  all: rewrite count_event_snoc, history_snoc.
  all: rewrite ?settle_hedgeRequests, ?settle_hedgeWins; simpl.
  all: try solve [split; lia].
  all: destruct Hrace as (Hm & Hh & Ha).
  all: destruct (history_of tr) as [hp hh hs ha].
  all: unfold main_inv, hedge_inv in *; simpl in *.
  all: destruct Hm as [-> _].
  all: destruct h; simpl in *; break_hyps; simplify_eq; try solve [split; lia].
  all: destruct hs; break_hyps; simplify_eq; simpl; try solve [split; lia].
Qed.

Lemma uexec_counters_inv (s : S3Backend) (f : frame) (tr : list event)
    (w0 w : world) (u : ustate) :
  uexec s tr (w0, Upload_start f) = Some (w, u) -> counters_inv w0 tr w.
Proof.
  intros H.
  apply (uexec_invariant s _
           (fun tr st => race_inv (history_of tr) st.2 /\ counters_inv w0 tr st.1)) in H;
    [apply H | split; [apply race_inv_start | split; cbn; lia] |].
  intros tr' [w1 u1] ev [w2 u2] _ [IH1 IH2] Hs. simpl in *. split.
  - eapply race_inv_step; eauto.
  - eapply counters_inv_step; eauto.
Qed.









(** ** Requests, bucket and summaries along an execution *)

Lemma replicate_snoc {A : Type} (n : nat) (x : A) :
  replicate n x ++ [x] = replicate (S n) x.
Proof. induction n as [|n IH]; simpl; [reflexivity | now rewrite IH]. Qed.

Lemma effects_inv_step (s : S3Backend) (f : frame) (w0 : world) (tr : list event)
    (ev : event) (w w' : world) (u u' : ustate) :
  effects_inv s f w0 tr w u ->
  ustep s ev (w, u) = Some (w', u') ->
  effects_inv s f w0 (tr ++ [ev]) w' u'.
Proof.
  intros Hinv Hs.
  destruct u as [f' m h c ch].
  assert (Hf : f' = f) by apply Hinv. subst f'.
  step_cases Hs; simplify_eq.
  all: unfold effects_inv, puts_started in *.
  all: rewrite !count_event_snoc, history_snoc.
  all: destruct (history_of tr) as [hp hh hs ha]; simpl in *.
  all: destruct Hinv as (_ & Hq & Hsize & Hratio & Hcalls).
  all: rewrite ?settle_wire, ?settle_uploadSize, ?settle_compressRatio.
  all: split; [reflexivity |].
  all: (split; [| repeat split; solve [assumption | lia | simpl; congruence
                                      | rewrite Hsize, ?app_nil_r; reflexivity]]).
  all: destruct (putObject s f) as [q|] eqn:Hput; simplify_eq; simpl in *.
  all: rewrite ?Nat.add_0_r.
  all: try solve [break_hyps; repeat split; try assumption; try contradiction;
                  repeat case_match; try contradiction; try assumption; exact I].
  all: destruct Hq as [Hwire Hobj]; split.
  all: try solve [rewrite Hwire, <- app_assoc, replicate_snoc; do 2 f_equal; lia].
  all: try assumption.
  all: try solve [break_hyps; repeat split; try assumption; lia].
  all: intros Hl; destruct (reply_landed r) eqn:Hr; simpl;
    [apply lookup_insert_eq | apply Hobj].
  all: rewrite ?orb_false_r, ?orb_false_l in Hl; rewrite Hl, ?orb_true_r; reflexivity.
Qed.

Lemma effects_inv_start (s : S3Backend) (f : frame) (w0 : world) :
  effects_inv s f w0 [] w0 (Upload_start f).
Proof.
  unfold effects_inv. split; [reflexivity |].
  split; [| repeat split; simpl; now rewrite ?app_nil_r].
  destruct (putObject s f); simpl.
  - split; [now rewrite app_nil_r | discriminate].
  - repeat split.
Qed.

Lemma uexec_effects_inv (s : S3Backend) (f : frame) (tr : list event)
    (w0 w : world) (u : ustate) :
  uexec s tr (w0, Upload_start f) = Some (w, u) -> effects_inv s f w0 tr w u.
Proof.
  intros H.
  apply (uexec_invariant s _ (fun tr st => effects_inv s f w0 tr st.1 st.2)) in H;
    [exact H | apply effects_inv_start |].
  intros tr' [w1 u1] ev [w2 u2] _ IH Hs. simpl in *.
  eapply effects_inv_step; eauto.
Qed.

Lemma puts_started_le (s : S3Backend) (f : frame) (tr : list event)
    (w0 w : world) (u : ustate) :
  uexec s tr (w0, Upload_start f) = Some (w, u) -> puts_started tr <= 2.
Proof.
  intros H.
  pose proof (uexec_effects_inv _ _ _ _ _ _ H) as (_ & _ & _ & _ & Hm).
  pose proof (uexec_launched_inv _ _ _ _ _ _ H) as Hl.
  unfold puts_started, launched_inv in *.
  destruct (u_main u), (u_hedge u); lia.
Qed.


(** What [Upload_prepare] leaves in the frame and in the world. *)
Lemma Upload_prepare_frame (gzipWriter : bytes -> gzip_result) (s : S3Backend)
    (key : string) (data : bytes) (opts : option UploadOptions) (w0 w1 : world)
    (f : frame) :
  Upload_prepare gzipWriter s key data opts w0 = (w1, inr f) ->
  f_key f = key /\ f_opts f = opts
  /\ f_contentType f = Some (chosen_contentType opts)
  /\ f_cacheControl f = (if guarded Immutable opts
                         then Some "public, max-age=604800, immutable" else None)
  /\ (if guarded Compress opts
      then exists z,
          gzipWriter data = GzipClosed z /\ f_data f = z
          /\ f_contentEncoding f = Some "gzip"
          /\ w1 = observeCompressRatio
                    (float64_div (float64_of_int (len z)) (float64_of_int (len data))) w0
      else f_data f = data /\ f_contentEncoding f = None /\ w1 = w0).
Proof.
  unfold Upload_prepare, chosen_contentType. intros H.
  destruct (guarded Compress opts).
  - destruct (gzipWriter data) as [err|err|z]; simplify_eq. simpl.
    repeat split; [destruct opts as [o|]; [destruct (String.eqb _ _) |]; reflexivity |].
    exists z. repeat split.
  - simplify_eq. simpl.
    repeat split. destruct opts as [o|]; [destruct (String.eqb _ _) |]; reflexivity.
Qed.

(** The requests of an execution: at most two, all equal to the request
    that [putObject] builds from the frame. *)
Lemma uexec_wire (s : S3Backend) (f : frame) (tr : list event)
    (w0 w : world) (u : ustate) :
  uexec s tr (w0, Upload_start f) = Some (w, u) ->
  exists reqs,
    wire w = wire w0 ++ map ReqPut reqs
    /\ length reqs <= 2
    /\ Forall (fun q => putObject s f = Some q) reqs.
Proof.
  intros H.
  pose proof (puts_started_le _ _ _ _ _ _ H) as Hle.
  apply uexec_effects_inv in H as (_ & Hq & _).
  destruct (putObject s f) as [q|].
  - destruct Hq as [Hw _]. exists (replicate (puts_started tr) q).
    split; [| split].
    + rewrite Hw. f_equal. clear. induction (puts_started tr); simpl; congruence.
    + now rewrite length_replicate.
    + apply Forall_forall. intros x Hx.
      apply elem_of_replicate in Hx as [-> _]. reflexivity.
  - destruct Hq as [Hw _]. exists []. simpl. rewrite app_nil_r.
    repeat split; [assumption | lia | constructor].
Qed.

(** ** Headers of the PUT *)



(** C8: the content type of the request that [Upload] builds is
    "application/octet-stream" when [opts] is nil or [opts.ContentType] is
    empty and [opts.ContentType] otherwise, and its content encoding is
    "gzip" when [opts.Compress] is set and absent otherwise; every PUT of
    the upload carries these two values. *)
Theorem Upload_content_headers
    (gzipWriter : bytes -> gzip_result) (s : S3Backend) (key : string) (data : bytes)
    (opts : option UploadOptions) (w0 w1 w : world) (u0 u : ustate) (tr : list event) :
  Upload gzipWriter s key data opts w0 = (w1, inr u0) ->
  uexec s tr (w1, u0) = Some (w, u) ->
  let contentType :=
    match opts with
    | None => "application/octet-stream"
    | Some o => if String.eqb (ContentType o) EmptyString
                then "application/octet-stream" else ContentType o
    end in
  let contentEncoding := if guarded Compress opts then Some "gzip" else None in
  f_contentType (u_frame u0) = Some contentType
  /\ f_contentEncoding (u_frame u0) = contentEncoding
  /\ exists reqs,
      wire w = wire w1 ++ map ReqPut reqs
      /\ Forall (fun q => put_ContentType (req_input q) = Some contentType
                          /\ put_ContentEncoding (req_input q) = contentEncoding) reqs.
Proof.
  intros Hup Hrun.
  apply Upload_inr in Hup as (f & Hp & -> & _).
  apply Upload_prepare_frame in Hp as (_ & _ & Hct & _ & Hce).
  apply uexec_wire in Hrun as (reqs & Hw & _ & Hall).
  assert (Henc : f_contentEncoding f = if guarded Compress opts then Some "gzip" else None).
  { destruct (guarded Compress opts); [destruct Hce as (z & _ & _ & -> & _) |
                                       destruct Hce as (_ & -> & _)]; reflexivity. }
  simpl. split; [exact Hct |]. split; [exact Henc |].
  exists reqs. split; [exact Hw |].
  eapply Forall_impl; [exact Hall |]. intros q Hq. simpl in Hq.
  unfold putObject in Hq. destruct (f_opts f); [| discriminate].
  injection Hq as <-. simpl. split; assumption.
Qed.

Lemma Upload_content_headers_witness :
  exists w1 u0 w u reqs,
    Upload StoredGzip.writer otherBackend "x" hello (Some compressed) world0 = (w1, inr u0)
    /\ uexec otherBackend hedge_wins (w1, u0) = Some (w, u)
    /\ f_contentType (u_frame u0) = Some "text/plain"
    /\ wire w = wire w1 ++ map ReqPut reqs
    /\ length reqs = 2
    /\ Forall (fun q => put_ContentType (req_input q) = Some "text/plain"
                        /\ put_ContentEncoding (req_input q) = Some "gzip") reqs.
Proof.
  assert (Hrun : exists w1 u0 w u,
             Upload StoredGzip.writer otherBackend "x" hello (Some compressed) world0
             = (w1, inr u0)
             /\ uexec otherBackend hedge_wins (w1, u0) = Some (w, u)
             /\ length (wire w) = 2 /\ wire w1 = []).
  { eexists _, _, _, _. split; [reflexivity |]. split; vm_compute; auto. }
  destruct Hrun as (w1 & u0 & w & u & Hup & Hrun & Hlen & Hnil).
  destruct (Upload_content_headers _ _ _ _ _ _ _ _ _ _ _ Hup Hrun)
    as (Hct & _ & reqs & Hw & Hall).
  exists w1, u0, w, u, reqs. repeat split; try assumption.
  rewrite Hw, Hnil, length_app, length_map in Hlen. exact Hlen.
Defined.

(** ** Nil options *)

(** C9: with nil options [Upload] reaches the race, the first step of the
    calling goroutine's PUT attempt is enabled and ends in a panic, and in
    every execution the caller either has not yet entered putObject or has
    panicked: it never returns, and no PUT ever reaches the wire.  The
    hedge goroutine, if it gets to its own attempt, panics the same way. *)
Theorem Upload_nil_options_panics
    (gzipWriter : bytes -> gzip_result) (s : S3Backend) (key : string) (data : bytes)
    (w0 : world) :
  exists f,
    Upload gzipWriter s key data None w0 = (w0, inr (Upload_start f))
    /\ putObject s f = None
    /\ uexec s [MainCall] (w0, Upload_start f)
       = Some (w0, set_main MPanic (Upload_start f))
    /\ forall tr w u,
        uexec s tr (w0, Upload_start f) = Some (w, u) ->
        ((u_main u = MCall /\ count_event is_MainCall tr = 0) \/ u_main u = MPanic)
        /\ (forall res, u_main u <> MReturned res)
        /\ wire w = wire w0
        /\ (0 < count_event is_HedgeCall tr -> u_hedge u = HPanic).
Proof.
  eexists. split; [reflexivity |]. split; [reflexivity |]. split; [reflexivity |].
  intros tr w u Hrun.
  pose proof (uexec_launched_inv _ _ _ _ _ _ Hrun) as Hl.
  apply uexec_effects_inv in Hrun as (_ & Hq & _ & _ & Hc).
  simpl in Hq. destruct Hq as (Hw & _ & Hm & Hh & Hhc).
  unfold launched_inv in Hl.
  repeat split.
  - destruct (u_main u); try contradiction; auto.
  - intros res Hres. rewrite Hres in Hm. exact Hm.
  - exact Hw.
  - intros Hcall. destruct (u_hedge u); try reflexivity; lia.
Qed.

Lemma Upload_nil_options_panics_witness :
  exists f w u,
    Upload StoredGzip.writer tigrisBackend "abc" hello None world0
    = (world0, inr (Upload_start f))
    /\ uexec tigrisBackend [HedgeStart; MainCall; HedgeTimer; HedgeInc; HedgeCall]
         (world0, Upload_start f) = Some (w, u)
    /\ u_main u = MPanic /\ u_hedge u = HPanic /\ wire w = [].
Proof.
  destruct (Upload_nil_options_panics StoredGzip.writer tigrisBackend "abc" hello world0)
    as (f & Hup & Hput & _ & Hall).
  assert (Hf : f = Build_frame "abc" hello None (Some "application/octet-stream") None None).
  { vm_compute in Hup. injection Hup as <-. reflexivity. }
  assert (Hrun : exists w u,
             uexec tigrisBackend [HedgeStart; MainCall; HedgeTimer; HedgeInc; HedgeCall]
               (world0, Upload_start f) = Some (w, u)).
  { rewrite Hf. eexists _, _. vm_compute. reflexivity. }
  destruct Hrun as (w & u & Hrun).
  destruct (Hall _ w u Hrun) as (Hm & _ & Hw & Hh).
  exists f, w, u. split; [exact Hup |]. split; [exact Hrun |].
  split; [| split; [apply Hh; vm_compute; lia | exact Hw]].
  destruct Hm as [[_ Hc] | Hm]; [vm_compute in Hc; discriminate | exact Hm].
Defined.

(** ** List: refused responses and returned keys *)

(** C5: [List] returns an error, and no keys, when the response holds an
    entry with a nil key or with a key that does not begin with
    [keyPrefix + prefix], or when [IsTruncated] is set; when it returns
    keys, each of them begins with [prefix]. *)
Theorem List_rejects_strange_responses
    (s : S3Backend) (prefix : string)
    (remote : ListObjectsV2Input -> error + ListObjectsV2Output) (w : world) :
  (forall out,
      remote {| list_Bucket := bucket s; list_Prefix := keyPrefix s +:+ prefix |} = inr out ->
      Exists (strange s prefix) (out_Contents out) \/ out_IsTruncated out = Some true ->
      exists err, (List s prefix remote w).2 = inl err)
  /\ (forall keys,
         (List s prefix remote w).2 = inr keys ->
         Forall (fun k => HasPrefix k prefix = true) keys).
Proof.
  split.
  - intros out Hout Hbad. unfold List. rewrite Hout.
    destruct Hbad as [Hbad | Htrunc].
    + apply (List_loop_strange s prefix _ []) in Hbad as [err ->]. simpl. eauto.
    + destruct (List_loop s prefix (out_Contents out) []) as [err|keys]; simpl; [eauto |].
      rewrite Htrunc. simpl. eauto.
  - intros keys. unfold List.
    destruct (remote _) as [err|out]; simpl; [discriminate |].
    destruct (List_loop s prefix (out_Contents out) []) as [err|ks] eqn:Hloop;
      simpl; [discriminate |].
    apply List_loop_keys in Hloop as (new & -> & _ & Hall).
    destruct (out_IsTruncated out) as [[]|]; simpl; intros H; simplify_eq; exact Hall.
Qed.

Lemma List_rejects_strange_responses_witness :
  (exists err, (List tigrisBackend "tile/" truncated_listing world0).2 = inl err)
  /\ (List tigrisBackend "tile/" complete_listing world0).2 = inr ["tile/0"; "tile/1"]
  /\ Forall (fun k => HasPrefix k "tile/" = true) ["tile/0"; "tile/1"].
Proof.
  split; [| split].
  - eapply (proj1 (List_rejects_strange_responses tigrisBackend "tile/"
                     truncated_listing world0)).
    + reflexivity.
    + right. reflexivity.
  - vm_compute. reflexivity.
  - apply (proj2 (List_rejects_strange_responses tigrisBackend "tile/"
                    complete_listing world0)).
    vm_compute. reflexivity.
Defined.

(** ** Keys on the wire *)



(** ** The two summaries *)

(** C7: an upload makes one observation on [uploadSize], when it
    returns, and the value is the float64 of the length of the body that
    its PUTs carry: the gzip output when [opts.Compress] is set, the
    caller's data otherwise.  With [opts.Compress] set, it makes one
    observation on [compressRatio], the float64 quotient of the length of
    the gzip output by the length of the data; otherwise none. *)
Theorem Upload_observes_sizes
    (gzipWriter : bytes -> gzip_result) (s : S3Backend) (key : string) (data : bytes)
    (opts : option UploadOptions) (w0 w1 w : world) (u0 u : ustate) (tr : list event) :
  Upload gzipWriter s key data opts w0 = (w1, inr u0) ->
  uexec s tr (w1, u0) = Some (w, u) ->
  exists body,
    (if guarded Compress opts then gzipWriter data = GzipClosed body else body = data)
    /\ uploadSize w = uploadSize w0
                      ++ match u_main u with
                         | MReturned _ => [float64_of_int (len body)]
                         | _ => []
                         end
    /\ compressRatio w =
       (if guarded Compress opts
        then compressRatio w0
             ++ [float64_div (float64_of_int (len body)) (float64_of_int (len data))]
        else compressRatio w0)
    /\ exists reqs,
        wire w = wire w0 ++ map ReqPut reqs
        /\ ((exists res, u_main u = MReturned res) -> reqs <> [])
        /\ Forall (fun q => put_Body (req_input q) = body
                            /\ put_ContentLength (req_input q) = len body) reqs.
Proof.
  intros Hup Hrun.
  apply Upload_inr in Hup as (f & Hp & -> & _).
  apply Upload_prepare_frame in Hp as (_ & _ & _ & _ & Hc).
  pose proof (uexec_effects_inv _ _ _ _ _ _ Hrun) as (_ & Hq & Hsize & Hratio & Hcalls).
  exists (f_data f).
  assert (Hw1 : wire w1 = wire w0 /\ uploadSize w1 = uploadSize w0
                /\ (if guarded Compress opts
                    then gzipWriter data = GzipClosed (f_data f)
                    else f_data f = data)
                /\ compressRatio w1 =
                   (if guarded Compress opts
                    then compressRatio w0
                         ++ [float64_div (float64_of_int (len (f_data f)))
                               (float64_of_int (len data))]
                    else compressRatio w0)).
  { destruct (guarded Compress opts).
    - destruct Hc as (z & Hz & <- & _ & ->). simpl. auto.
    - destruct Hc as (-> & _ & ->). auto. }
  destruct Hw1 as (Hwire & Hus & Hbody & Hcr).
  split; [exact Hbody |]. split; [rewrite Hsize, Hus; reflexivity |].
  split; [rewrite Hratio; exact Hcr |].
  destruct (putObject s f) as [q|] eqn:Hput.
  - destruct Hq as [Hw _]. exists (replicate (puts_started tr) q). split; [| split].
    + rewrite Hw, Hwire. f_equal. clear. induction (puts_started tr); simpl; congruence.
    + intros [res Hres]. rewrite Hres in Hcalls. unfold puts_started.
      rewrite Hcalls. discriminate.
    + apply Forall_forall. intros x Hx. apply elem_of_replicate in Hx as [-> _].
      unfold putObject in Hput. destruct (f_opts f); [| discriminate].
      injection Hput as <-. split; reflexivity.
  - destruct Hq as (Hw & _ & Hm & _). exists []. split; [| split].
    + simpl. rewrite app_nil_r. congruence.
    + intros [res Hres]. rewrite Hres in Hm. contradiction.
    + constructor.
Qed.

Lemma Upload_observes_sizes_witness :
  exists w1 u0 w u,
    Upload StoredGzip.writer otherBackend "x" hello (Some compressed) world0 = (w1, inr u0)
    /\ uexec otherBackend hedge_wins (w1, u0) = Some (w, u)
    /\ uploadSize w = [float64_of_int 28]
    /\ compressRatio w = [float64_div (float64_of_int 28) (float64_of_int 5)].
Proof.
  assert (Hrun : exists w1 u0 w u z,
             Upload StoredGzip.writer otherBackend "x" hello (Some compressed) world0
             = (w1, inr u0)
             /\ uexec otherBackend hedge_wins (w1, u0) = Some (w, u)
             /\ StoredGzip.writer hello = GzipClosed z /\ len z = 28%Z
             /\ exists res, u_main u = MReturned res).
  { eexists _, _, _, _, _. split; [reflexivity |]. split; [vm_compute; reflexivity |].
    split; [reflexivity |]. split; [vm_compute; reflexivity |].
    eexists. vm_compute. reflexivity. }
  destruct Hrun as (w1 & u0 & w & u & z & Hup & Hrun & Hz & Hlen & res & Hres).
  destruct (Upload_observes_sizes _ _ _ _ _ _ _ _ _ _ _ Hup Hrun)
    as (body & Hbody & Hsize & Hratio & _).
  simpl in Hbody. rewrite Hz in Hbody. injection Hbody as <-.
  rewrite Hres, Hlen in Hsize. rewrite Hlen in Hratio.
  exists w1, u0, w, u. repeat split; assumption.
Defined.

(** ** Round trip through the store *)

(** After a successful upload the bucket holds the object that the PUTs
    carried, under the prefixed key. *)
Lemma Upload_success_stores (s : S3Backend) (f : frame) (q : PutRequest)
    (tr : list event) (w0 w : world) (u : ustate) :
  putObject s f = Some q ->
  uexec s tr (w0, Upload_start f) = Some (w, u) ->
  u_main u = MReturned None ->
  objects w !! put_Key (req_input q) = Some (object_of (req_input q)).
Proof.
  intros Hput Hrun Hret.
  pose proof (uexec_race_inv _ _ _ _ _ _ Hrun) as (Hm & _ & _).
  apply uexec_effects_inv in Hrun as (_ & Hq & _).
  rewrite Hput in Hq. destruct Hq as [_ Hobj]. apply Hobj.
  unfold main_inv in Hm. rewrite Hret in Hm. destruct Hm as (r & Had & Hres).
  symmetry in Hres. apply Upload_result_nil in Hres as ->.
  unfold adopted_reply in Had.
  destruct (h_adopted (history_of tr)) as [[]|]; [| | discriminate];
    rewrite Had; simpl; [reflexivity | apply orb_true_r].
Qed.

(** C4: when [Upload] with [opts.Compress] returns nil, the bucket holds
    the gzip output with content encoding gzip under [keyPrefix + key],
    and a [Fetch] of the key on a store that returns what it holds gives
    back the caller's data, provided the gzip reader inverts the gzip
    writer on this data. *)
Theorem Fetch_after_compressed_Upload
    (gzipWriter : bytes -> gzip_result) (gzipReader : stream -> gunzip_result)
    (s : S3Backend) (key : string) (data z : bytes) (o : UploadOptions)
    (w0 w1 w : world) (u0 u : ustate) (tr : list event) :
  Compress o = true ->
  gzipWriter data = GzipClosed z ->
  gzipReader {| s_bytes := z; s_err := None |} = GunzipData data ->
  Upload gzipWriter s key data (Some o) w0 = (w1, inr u0) ->
  uexec s tr (w1, u0) = Some (w, u) ->
  u_main u = MReturned None ->
  (exists obj, objects w !! (keyPrefix s +:+ key) = Some obj
               /\ o_body obj = z /\ o_encoding obj = Some "gzip")
  /\ (Fetch gzipReader s key (store_get (objects w)) w).2 = inr data.
Proof.
  intros Hc Hz Hinv Hup Hrun Hret.
  apply Upload_inr in Hup as (f & Hp & -> & _).
  apply Upload_prepare_frame in Hp as (Hk & Hopts & _ & _ & Hcomp).
  simpl in Hcomp. rewrite Hc in Hcomp. destruct Hcomp as (z' & Hz' & Hdata & Henc & _).
  rewrite Hz in Hz'. injection Hz' as <-.
  assert (Hput : exists q, putObject s f = Some q
                           /\ put_Key (req_input q) = keyPrefix s +:+ key
                           /\ o_body (object_of (req_input q)) = z
                           /\ o_encoding (object_of (req_input q)) = Some "gzip").
  { unfold putObject. rewrite Hopts. eexists. split; [reflexivity |]. simpl.
    rewrite Hk, Hdata, Henc. auto. }
  destruct Hput as (q & Hput & Hkey & Hbody & Hencq).
  pose proof (Upload_success_stores _ _ _ _ _ _ _ Hput Hrun Hret) as Hobj.
  rewrite Hkey in Hobj. split.
  - eexists. split; [exact Hobj |]. auto.
  - unfold Fetch, store_get. simpl. rewrite Hobj. simpl.
    simpl in Hencq, Hbody. rewrite Hencq. simpl. rewrite Hbody, Hinv. reflexivity.
Qed.

Lemma Fetch_after_compressed_Upload_witness :
  exists w1 u0 w u,
    Upload StoredGzip.writer otherBackend "x" hello (Some compressed) world0 = (w1, inr u0)
    /\ uexec otherBackend hedge_wins (w1, u0) = Some (w, u)
    /\ (Fetch StoredGzip.reader otherBackend "x" (store_get (objects w)) w).2 = inr hello.
Proof.
  assert (Hrun : exists w1 u0 w u z,
             Upload StoredGzip.writer otherBackend "x" hello (Some compressed) world0
             = (w1, inr u0)
             /\ uexec otherBackend hedge_wins (w1, u0) = Some (w, u)
             /\ StoredGzip.writer hello = GzipClosed z
             /\ StoredGzip.reader {| s_bytes := z; s_err := None |} = GunzipData hello
             /\ u_main u = MReturned None).
  { eexists _, _, _, _, _. split; [reflexivity |]. split; [vm_compute; reflexivity |].
    split; [reflexivity |]. split; vm_compute; reflexivity. }
  destruct Hrun as (w1 & u0 & w & u & z & Hup & Hrun & Hz & Hinv & Hret).
  exists w1, u0, w, u. split; [exact Hup |]. split; [exact Hrun |].
  exact (proj2 (Fetch_after_compressed_Upload StoredGzip.writer StoredGzip.reader
                  otherBackend "x" hello z compressed world0 w1 w u0 u hedge_wins
                  eq_refl Hz Hinv Hup Hrun Hret)).
Defined.

(** ** float64 of a positive integer

    The conversion of a positive integer rounds to a positive finite
    number or to plus infinity, never to zero; dividing it by zero gives
    plus infinity. *)

Section Float64Facts.

Local Open Scope Z_scope.

Lemma digits2_log2 (p : positive) : Zpos (digits2_pos p) = Z.log2 (Zpos p) + 1.
Proof.
  induction p as [p IH|p IH|]; simpl; try reflexivity.
  - rewrite Pos2Z.inj_succ.
    destruct p; simpl in *; try lia.
  - rewrite Pos2Z.inj_succ.
    destruct p; simpl in *; try lia.
Qed.

Lemma shr_1_m (mrs : shr_record) :
  0 <= shr_m mrs -> shr_m (shr_1 mrs) = shr_m mrs / 2.
Proof.
  destruct mrs as [m r s]. simpl. intros Hm.
  destruct m as [|[p|p|]|p]; simpl; try reflexivity; try lia.
  - rewrite Pos2Z.inj_xI. apply (Z.div_unique _ _ _ 1); lia.
  - rewrite Pos2Z.inj_xO. apply (Z.div_unique _ _ _ 0); lia.
Qed.

Lemma iter_shr_1_m (p : positive) (mrs : shr_record) :
  0 <= shr_m mrs -> shr_m (SpecFloat.iter_pos shr_1 p mrs) = shr_m mrs / 2 ^ Zpos p.
Proof.
  revert mrs. induction p as [p IH|p IH|]; intros mrs Hm; simpl SpecFloat.iter_pos.
  - assert (H1 : 0 <= shr_m (shr_1 mrs)).
    { rewrite shr_1_m by assumption. apply Z.div_pos; lia. }
    assert (H2 : 0 <= shr_m (SpecFloat.iter_pos shr_1 p (shr_1 mrs))).
    { rewrite IH by assumption. apply Z.div_pos; lia. }
    rewrite IH, IH, shr_1_m by assumption.
    assert (E : 2 ^ Z.pos p~1 = 2 * 2 ^ Z.pos p * 2 ^ Z.pos p).
    { replace (Z.pos p~1) with (1 + Z.pos p * 2) by lia.
      rewrite Z.pow_add_r, Z.pow_mul_r, Z.pow_2_r, Z.pow_1_r by lia. lia. }
    assert (0 < 2 ^ Z.pos p) by (apply Z.pow_pos_nonneg; lia).
    rewrite !Z.div_div, E by lia. f_equal; lia.
  - assert (H2 : 0 <= shr_m (SpecFloat.iter_pos shr_1 p mrs)).
    { rewrite IH by assumption. apply Z.div_pos; lia. }
    rewrite IH, IH by assumption.
    assert (E : 2 ^ Z.pos p~0 = 2 ^ Z.pos p * 2 ^ Z.pos p).
    { replace (Z.pos p~0) with (Z.pos p * 2) by lia.
      rewrite Z.pow_mul_r, Z.pow_2_r by lia. reflexivity. }
    assert (0 < 2 ^ Z.pos p) by (apply Z.pow_pos_nonneg; lia).
    rewrite !Z.div_div, E by lia. f_equal; lia.
  - rewrite shr_1_m by assumption. reflexivity.
Qed.

(** positive mantissa, exponent above the subnormal floor: the shift of
    [shr_fexp] keeps the mantissa positive and the magnitude *)
Lemma shr_fexp_pos (m e : Z) (l : location) :
  0 < m -> emin 53 1024 < Zdigits2 m + e ->
  let '(mrs, e') := shr_fexp 53 1024 m e l in
  0 < shr_m mrs /\ Zdigits2 (shr_m mrs) + e' = Zdigits2 m + e.
Proof.
  intros Hm He. unfold shr_fexp, shr.
  assert (Hrec : shr_m (shr_record_of_loc m l) = m).
  { destruct l as [|[]]; reflexivity. }
  destruct m as [|p|p]; try lia.
  unfold Zdigits2 in *. rewrite digits2_log2 in *.
  set (n := fexp 53 1024 (Z.log2 (Z.pos p) + 1 + e) - e).
  assert (Hn : n < Z.log2 (Z.pos p) + 1).
  { unfold n, fexp, emin in *. lia. }
  destruct n as [|k|k] eqn:Hk.
  - rewrite Hrec. unfold Zdigits2. rewrite digits2_log2. lia.
  - rewrite iter_shr_1_m by (rewrite Hrec; lia). rewrite Hrec.
    rewrite <- Z.shiftr_div_pow2 by lia.
    assert (Hlog : Z.log2 (Z.shiftr (Z.pos p) (Z.pos k)) = Z.log2 (Z.pos p) - Z.pos k).
    { rewrite Z.log2_shiftr by lia. lia. }
    assert (Hpos : 0 < Z.shiftr (Z.pos p) (Z.pos k)).
    { rewrite Z.shiftr_div_pow2 by lia.
      apply Z.div_str_pos. split; [apply Z.pow_pos_nonneg; lia |].
      transitivity (2 ^ Z.log2 (Z.pos p)).
      - apply Z.pow_le_mono_r; lia.
      - apply Z.log2_spec. lia. }
    split; [exact Hpos |].
    destruct (Z.shiftr (Z.pos p) (Z.pos k)) as [|q|q] eqn:Hq; try lia.
    unfold Zdigits2. rewrite digits2_log2. lia.
  - rewrite Hrec. unfold Zdigits2. rewrite digits2_log2. lia.
Qed.

Lemma Zdigits2_mono (a b : Z) : 0 < a -> a <= b -> Zdigits2 a <= Zdigits2 b.
Proof.
  intros Ha Hab. destruct a as [|p|p], b as [|q|q]; try lia.
  unfold Zdigits2. rewrite !digits2_log2.
  pose proof (Z.log2_le_mono (Z.pos p) (Z.pos q) Hab). lia.
Qed.

Lemma round_nearest_even_bounds (m : Z) (l : location) :
  m <= round_nearest_even m l <= m + 1.
Proof.
  unfold round_nearest_even. destruct l as [|[]]; try lia.
  destruct (Z.even m); lia.
Qed.

Lemma binary_round_aux_pos (sx : bool) (mx ex : Z) (lx : location) :
  0 < mx -> emin 53 1024 < Zdigits2 mx + ex ->
  (exists m e, binary_round_aux 53 1024 sx mx ex lx = S754_finite sx m e)
  \/ binary_round_aux 53 1024 sx mx ex lx = S754_infinity sx.
Proof.
  intros Hm He. unfold binary_round_aux.
  pose proof (shr_fexp_pos mx ex lx Hm He) as H1.
  destruct (shr_fexp 53 1024 mx ex lx) as [mrs' e'].
  destruct H1 as [Hpos1 Hmag1].
  pose proof (round_nearest_even_bounds (shr_m mrs') (loc_of_shr_record mrs')) as Hr.
  set (m2 := round_nearest_even (shr_m mrs') (loc_of_shr_record mrs')) in *.
  assert (Hpos2 : 0 < m2) by lia.
  assert (Hmag2 : emin 53 1024 < Zdigits2 m2 + e').
  { pose proof (Zdigits2_mono (shr_m mrs') m2 Hpos1 (proj1 Hr)). lia. }
  pose proof (shr_fexp_pos m2 e' loc_Exact Hpos2 Hmag2) as H2.
  destruct (shr_fexp 53 1024 m2 e' loc_Exact) as [mrs'' e''].
  destruct H2 as [Hpos3 _].
  destruct (shr_m mrs'') as [|m|m]; try lia.
  destruct (e'' <=? 1024 - 53); eauto.
Qed.

Lemma digits2_iter_xO (p k : positive) :
  digits2_pos (Pos.iter xO p k) = (digits2_pos p + k)%positive.
Proof.
  induction k as [|k IH] using Pos.peano_ind.
  - simpl. lia.
  - rewrite Pos.iter_succ. simpl. rewrite IH. lia.
Qed.

Lemma binary_round_pos (sx : bool) (p : positive) :
  (exists m e, binary_round 53 1024 sx p 0 = S754_finite sx m e)
  \/ binary_round 53 1024 sx p 0 = S754_infinity sx.
Proof.
  unfold binary_round, shl_align.
  destruct (fexp 53 1024 (Z.pos (digits2_pos p) + 0) - 0) as [|d|d] eqn:Hd.
  - apply binary_round_aux_pos; [lia |]. unfold Zdigits2, emin. lia.
  - apply binary_round_aux_pos; [lia |]. unfold Zdigits2, emin. lia.
  - apply binary_round_aux_pos; [lia |].
    unfold Zdigits2. rewrite digits2_iter_xO.
    unfold fexp, emin in *. lia.
Qed.

Lemma float64_of_int_pos (n : Z) :
  0 < n ->
  (exists m e, float64_of_int n = S754_finite false m e)
  \/ float64_of_int n = S754_infinity false.
Proof.
  intros Hn. destruct n as [|p|p]; try lia.
  apply binary_round_pos.
Qed.

Lemma float64_div_pos_zero (n : Z) :
  0 < n -> float64_div (float64_of_int n) (float64_of_int 0) = S754_infinity false.
Proof.
  intros Hn. destruct (float64_of_int_pos n Hn) as [(m & e & ->) | ->]; reflexivity.
Qed.

End Float64Facts.

(** ** Compressing an empty body *)

(** C10: an upload with [opts.Compress] of an empty body, whose gzip
    stream is not empty, observes plus infinity on [compressRatio]: the
    float64 of a positive length divided by the float64 of zero.  The
    upload goes on: the request it builds has the gzip stream as body and
    gzip as content encoding, and the caller's PUT sends it. *)
Theorem Upload_compress_empty_ratio_is_infinite
    (gzipWriter : bytes -> gzip_result) (s : S3Backend) (key : string)
    (o : UploadOptions) (z : bytes) (w0 : world) :
  Compress o = true ->
  gzipWriter [] = GzipClosed z ->
  z <> [] ->
  exists f q,
    Upload gzipWriter s key [] (Some o) w0
    = (observeCompressRatio (S754_infinity false) w0, inr (Upload_start f))
    /\ f_data f = z /\ f_contentEncoding f = Some "gzip"
    /\ putObject s f = Some q
    /\ put_Body (req_input q) = z
    /\ put_ContentLength (req_input q) = len z
    /\ uexec s [MainCall] (observeCompressRatio (S754_infinity false) w0, Upload_start f)
       = Some (send (ReqPut q) (observeCompressRatio (S754_infinity false) w0),
               set_main MWait (Upload_start f)).
Proof.
  intros Hc Hz Hne.
  assert (Hlen : (0 < len z)%Z).
  { unfold len. destruct z; [contradiction | simpl; lia]. }
  unfold Upload, Upload_prepare, guarded. rewrite Hc, Hz.
  change (len []) with 0%Z. rewrite (float64_div_pos_zero _ Hlen).
  eexists _, _. split; [reflexivity |]. simpl.
  split; [reflexivity |]. split; [reflexivity |]. split; [reflexivity |].
  split; [reflexivity |]. split; reflexivity.
Qed.

Lemma Upload_compress_empty_ratio_is_infinite_witness :
  exists z f w1,
    StoredGzip.writer [] = GzipClosed z /\ length z = 23
    /\ Upload StoredGzip.writer otherBackend "empty" [] (Some compressed) world0
       = (w1, inr (Upload_start f))
    /\ compressRatio w1 = [S754_infinity false]
    /\ f_data f = z.
Proof.
  assert (Hz : exists z, StoredGzip.writer [] = GzipClosed z /\ length z = 23 /\ z <> []).
  { eexists. split; [reflexivity |]. split; [reflexivity | discriminate]. }
  destruct Hz as (z & Hz & Hlen & Hne).
  destruct (Upload_compress_empty_ratio_is_infinite StoredGzip.writer otherBackend
              "empty" compressed z world0 eq_refl Hz Hne)
    as (f & q & Hup & Hdata & _).
  exists z, f, (observeCompressRatio (S754_infinity false) world0).
  repeat split; assumption.
Defined.

(** * Further properties of the operations *)

(** ** Fetch *)

(** The branch of [Fetch] that does not decompress. *)
Lemma Fetch_without_gzip
    (gzipReader : stream -> gunzip_result) (s : S3Backend) (key : string)
    (remote : GetObjectInput -> error + GetObjectOutput) (out : GetObjectOutput)
    (w : world) :
  remote {| get_Bucket := bucket s; get_Key := keyPrefix s +:+ key |} = inr out ->
  is_gzip (out_ContentEncoding out) = false ->
  (Fetch gzipReader s key remote w).2
  = match ReadAll (out_Body out) with
    | inr data => inr data
    | inl err => inl (Wrapf "failed to read %q from S3: %w" [key] err)
    end.
Proof.
  intros Hout Hg. unfold Fetch. rewrite Hout, Hg.
  destruct (ReadAll (out_Body out)); reflexivity.
Qed.

(** [Fetch] hands the body to the gzip reader only when the content
    encoding is exactly "gzip"; with any other encoding, or none, it
    returns the bytes of the body as they are, whatever the reader would
    do with them, and a failed read is an error, never partial data. *)
Theorem Fetch_passes_other_encodings
    (gzipReader : stream -> gunzip_result) (s : S3Backend) (key : string)
    (remote : GetObjectInput -> error + GetObjectOutput) (out : GetObjectOutput)
    (w : world) :
  remote {| get_Bucket := bucket s; get_Key := keyPrefix s +:+ key |} = inr out ->
  out_ContentEncoding out <> Some "gzip" ->
  (Fetch gzipReader s key remote w).2
  = match s_err (out_Body out) with
    | None => inr (s_bytes (out_Body out))
    | Some err => inl (Wrapf "failed to read %q from S3: %w" [key] err)
    end.
Proof.
  intros Hout Henc.
  rewrite (Fetch_without_gzip gzipReader s key remote out w Hout).
  - unfold ReadAll. destruct (s_err (out_Body out)); reflexivity.
  - unfold is_gzip. destruct (out_ContentEncoding out) as [e|]; [| reflexivity].
    destruct (String.eqb_spec e "gzip") as [->|]; [congruence | reflexivity].
Qed.

Lemma Fetch_passes_other_encodings_witness :
  (Fetch StoredGzip.reader tigrisBackend "abc" (shouting_store hello) world0).2 = inr hello.
Proof.
  apply (Fetch_passes_other_encodings StoredGzip.reader tigrisBackend "abc"
           (shouting_store hello)
           {| out_Body := {| s_bytes := hello; s_err := None |};
              out_ContentLength := Some (len hello);
              out_ContentEncoding := Some "GZIP" |} world0).
  - reflexivity.
  - discriminate.
Defined.



(** ** Upload: failures before the race, and the PUTs of the race *)

(** [Upload] returns before the race exactly when compression is asked for
    and the gzip writer fails, in [Write] or in [Close]; it then returns
    the gzip error wrapped with the key, sends nothing and observes
    nothing. *)
Theorem Upload_fails_early_iff_gzip_fails
    (gzipWriter : bytes -> gzip_result) (s : S3Backend) (key : string) (data : bytes)
    (opts : option UploadOptions) (w0 w1 : world) (err : error) :
  Upload gzipWriter s key data opts w0 = (w1, inl err)
  <-> (guarded Compress opts = true
       /\ w1 = w0
       /\ exists cause,
           (gzipWriter data = GzipWriteErr cause \/ gzipWriter data = GzipCloseErr cause)
           /\ err = Wrapf "failed to compress %q: %w" [key] cause).
Proof.
  unfold Upload, Upload_prepare. split.
  - destruct (guarded Compress opts); [| discriminate].
    destruct (gzipWriter data) as [c|c|z]; intros H; simplify_eq;
      split; try reflexivity; split; try reflexivity; exists c; auto.
  - intros (-> & -> & cause & [-> | ->] & ->); reflexivity.
Qed.

Lemma Upload_fails_early_iff_gzip_fails_witness :
  Upload failing_gzip tigrisBackend "abc" hello (Some compressed) world0
  = (world0, inl (Wrapf "failed to compress %q: %w" ["abc"] (Remote "short write"))).
Proof.
  apply (Upload_fails_early_iff_gzip_fails failing_gzip tigrisBackend "abc" hello
           (Some compressed) world0 world0).
  split; [reflexivity |]. split; [reflexivity |].
  exists (Remote "short write"). split; [right |]; reflexivity.
Defined.

(** With options given, the two goroutines never panic. *)
Lemma uexec_no_panic (s : S3Backend) (f : frame) (q : PutRequest) (tr : list event)
    (w0 w : world) (u : ustate) :
  putObject s f = Some q ->
  uexec s tr (w0, Upload_start f) = Some (w, u) ->
  u_main u <> MPanic /\ u_hedge u <> HPanic.
Proof.
  intros Hput H.
  apply (uexec_invariant s _
           (fun _ st => u_frame st.2 = f /\ u_main st.2 <> MPanic
                        /\ u_hedge st.2 <> HPanic)) in H;
    [apply H | repeat split; discriminate |].
  intros tr' [w1 u1] ev [w2 u2] _ (Hf & Hm & Hh) Hs. simpl in *.
  destruct u1 as [f' m h c ch]. simpl in *. subst f'.
  step_cases Hs; simplify_eq; repeat split; try assumption; discriminate.
Qed.

(** An upload with options sends at most two PUTs, all equal to the one
    request built from the prepared body and headers; it has sent at
    least one by the time it returns, and a second one only after the
    hedge was counted in [hedgeRequests]. *)
Theorem Upload_sends_identical_puts
    (gzipWriter : bytes -> gzip_result) (s : S3Backend) (key : string) (data : bytes)
    (o : UploadOptions) (w0 w1 w : world) (u0 u : ustate) (tr : list event) :
  Upload gzipWriter s key data (Some o) w0 = (w1, inr u0) ->
  uexec s tr (w1, u0) = Some (w, u) ->
  exists q n,
    putObject s (u_frame u0) = Some q
    /\ wire w = wire w1 ++ replicate n (ReqPut q)
    /\ n <= 2
    /\ ((exists res, u_main u = MReturned res) -> 1 <= n)
    /\ (n = 2 -> hedgeRequests w = hedgeRequests w1 + 1).
Proof.
  intros Hup Hrun.
  apply Upload_inr in Hup as (f & _ & -> & _ & Hopts).
  assert (Hput : exists q, putObject s f = Some q).
  { unfold putObject. rewrite Hopts. eauto. }
  destruct Hput as [q Hput].
  pose proof (puts_started_le _ _ _ _ _ _ Hrun) as Hle.
  pose proof (uexec_launched_inv _ _ _ _ _ _ Hrun) as Hl.
  pose proof (uexec_counters_inv _ _ _ _ _ _ Hrun) as [Hr _].
  apply uexec_effects_inv in Hrun as (_ & Hq & _ & _ & Hcalls).
  rewrite Hput in Hq. destruct Hq as [Hw _].
  exists q, (puts_started tr). simpl. split; [exact Hput |]. split; [exact Hw |].
  split; [exact Hle |]. unfold puts_started, launched_inv in *. split.
  - intros [res Hres]. rewrite Hres in Hcalls. lia.
  - intros Htwo. rewrite Hr. destruct (u_main u), (u_hedge u); lia.
Qed.

Lemma Upload_sends_identical_puts_witness :
  exists w1 u0 w u q,
    Upload StoredGzip.writer tigrisBackend "abc" hello (Some plain) world0 = (w1, inr u0)
    /\ uexec tigrisBackend hedge_wins (w1, u0) = Some (w, u)
    /\ wire w = [ReqPut q; ReqPut q]
    /\ hedgeRequests w = 1.
Proof.
  assert (Hrun : exists w1 u0 w u,
             Upload StoredGzip.writer tigrisBackend "abc" hello (Some plain) world0
             = (w1, inr u0)
             /\ uexec tigrisBackend hedge_wins (w1, u0) = Some (w, u)
             /\ length (wire w) = 2 /\ wire w1 = [] /\ hedgeRequests w1 = 0).
  { eexists _, _, _, _. split; [reflexivity |]. split; vm_compute; auto. }
  destruct Hrun as (w1 & u0 & w & u & Hup & Hrun & Hlen & Hnil & Hzero).
  destruct (Upload_sends_identical_puts _ _ _ _ _ _ _ _ _ _ _ Hup Hrun)
    as (q & n & _ & Hw & _ & _ & Htwo).
  rewrite Hnil in Hw. simpl in Hw.
  assert (Hn : n = 2) by (rewrite Hw, length_replicate in Hlen; exact Hlen).
  exists w1, u0, w, u, q. split; [exact Hup |]. split; [exact Hrun |].
  split; [rewrite Hw, Hn; reflexivity | rewrite (Htwo Hn), Hzero; reflexivity].
Defined.

(** ** Neither goroutine is left waiting *)

Lemma uexec_cancel_inv (s : S3Backend) (f : frame) (tr : list event)
    (w0 w : world) (u : ustate) :
  uexec s tr (w0, Upload_start f) = Some (w, u) -> cancel_inv u.
Proof.
  intros H.
  apply (uexec_invariant s _
           (fun tr st => race_inv (history_of tr) st.2 /\ cancel_inv st.2)) in H;
    [apply H | split; [apply race_inv_start | split; [discriminate | exact I]] |].
  intros tr' [w1 u1] ev [w2 u2] _ [IH1 IH2] Hs. simpl in *. split.
  - eapply race_inv_step; eauto.
  - destruct IH1 as (_ & Hh & _). destruct IH2 as [Hx Hc].
    destruct u1 as [f' m h c ch]. unfold hedge_inv in Hh.
    step_cases Hs; simplify_eq; unfold cancel_inv; simpl in *.
    all: try solve [split; [auto; discriminate | auto; repeat case_match; auto]].
    all: destruct Hh as [_ Hh]; discriminate Hh.
Qed.

Ltac run_events Hput :=
  unfold uexec; simpl fold_left;
  repeat (unfold ustep, main_step, hedge_step, crashed; simpl; rewrite ?Hput; simpl).

(** The caller never waits for the hedge: from every state of an upload
    with options, the steps of the calling goroutine alone, with any
    reply to a primary PUT still in flight, take [Upload] to its return;
    the hedge goroutine does not move meanwhile. *)
Theorem Upload_returns_without_the_hedge
    (gzipWriter : bytes -> gzip_result) (s : S3Backend) (key : string) (data : bytes)
    (o : UploadOptions) (w0 w1 w : world) (u0 u : ustate) (tr : list event)
    (r : put_reply) :
  Upload gzipWriter s key data (Some o) w0 = (w1, inr u0) ->
  uexec s tr (w1, u0) = Some (w, u) ->
  exists w' u' res,
    uexec s (main_finish (u_main u) r) (w, u) = Some (w', u')
    /\ u_main u' = MReturned res
    /\ u_hedge u' = u_hedge u.
Proof.
  intros Hup Hrun.
  apply Upload_inr in Hup as (f & _ & -> & _ & Hopts).
  assert (Hput : exists q, putObject s f = Some q).
  { unfold putObject. rewrite Hopts. eauto. }
  destruct Hput as [q Hput].
  pose proof (uexec_no_panic _ _ _ _ _ _ _ Hput Hrun) as [Hm Hh].
  pose proof (uexec_frame _ _ _ _ _ _ Hrun) as Hf. simpl in Hf.
  destruct u as [f' m h c ch]. simpl in *. subst f'.
  destruct m; try congruence; destruct h; try congruence.
  all: try (destruct ch).
  all: eexists _, _, _; run_events Hput; split; [reflexivity |]; split; reflexivity.
Qed.

Lemma Upload_returns_without_the_hedge_witness :
  exists w1 u0 w u w' u' res,
    Upload StoredGzip.writer tigrisBackend "abc" hello (Some plain) world0 = (w1, inr u0)
    /\ uexec tigrisBackend [MainCall; HedgeStart; HedgeTimer; HedgeInc; HedgeCall] (w1, u0)
       = Some (w, u)
    /\ uexec tigrisBackend (main_finish (u_main u) PutOK) (w, u) = Some (w', u')
    /\ u_main u' = MReturned res
    /\ u_hedge u' = HWait.
Proof.
  assert (Hrun : exists w1 u0 w u,
             Upload StoredGzip.writer tigrisBackend "abc" hello (Some plain) world0
             = (w1, inr u0)
             /\ uexec tigrisBackend [MainCall; HedgeStart; HedgeTimer; HedgeInc; HedgeCall]
                  (w1, u0) = Some (w, u)
             /\ u_hedge u = HWait).
  { eexists _, _, _, _. split; [reflexivity |]. split; vm_compute; reflexivity. }
  destruct Hrun as (w1 & u0 & w & u & Hup & Hrun & Hh).
  destruct (Upload_returns_without_the_hedge _ _ _ _ _ _ _ _ _ _ _ PutOK Hup Hrun)
    as (w' & u' & res & Hfin & Hres & Hsame).
  exists w1, u0, w, u, w', u', res. rewrite Hsame, Hh. auto.
Defined.

(** No goroutine and no context is leaked: once the caller is past its
    select, the hedge goroutine can always run to its exit, by the done
    case if it has not taken the timer case, and otherwise through its
    PUT, a send on the one-slot channel that finds the slot free, and its
    cancel; the scope is cancelled when it exits. *)
Theorem hedge_goroutine_finishes
    (gzipWriter : bytes -> gzip_result) (s : S3Backend) (key : string) (data : bytes)
    (o : UploadOptions) (w0 w1 w : world) (u0 u : ustate) (tr : list event)
    (r : put_reply) :
  Upload gzipWriter s key data (Some o) w0 = (w1, inr u0) ->
  uexec s tr (w1, u0) = Some (w, u) ->
  match u_main u with MFinish _ | MReturned _ => True | _ => False end ->
  exists w' u',
    uexec s (hedge_finish (u_hedge u) r) (w, u) = Some (w', u')
    /\ u_hedge u' = HExit
    /\ u_cancelled u' = true
    /\ u_main u' = u_main u.
Proof.
  intros Hup Hrun Hpast.
  apply Upload_inr in Hup as (f & _ & -> & _ & Hopts).
  assert (Hput : exists q, putObject s f = Some q).
  { unfold putObject. rewrite Hopts. eauto. }
  destruct Hput as [q Hput].
  pose proof (uexec_no_panic _ _ _ _ _ _ _ Hput Hrun) as [_ Hh].
  pose proof (uexec_frame _ _ _ _ _ _ Hrun) as Hf. simpl in Hf.
  pose proof (uexec_cancel_inv _ _ _ _ _ _ Hrun) as [Hx Hc].
  pose proof (uexec_race_inv _ _ _ _ _ _ Hrun) as (_ & Hinv & _).
  unfold hedge_inv in Hinv.
  destruct u as [f' m h c ch]. simpl in *. subst f'.
  destruct m; try contradiction; destruct h; try congruence; simpl in *.
  all: break_hyps; subst.
  all: try (rewrite Hx by reflexivity).
  all: eexists _, _; run_events Hput; split; [reflexivity |]; repeat split; auto.
Qed.

Lemma hedge_goroutine_finishes_witness :
  exists w1 u0 w u w' u',
    Upload StoredGzip.writer tigrisBackend "abc" hello (Some plain) world0 = (w1, inr u0)
    /\ uexec tigrisBackend
         [MainCall; HedgeStart; HedgeTimer; MainReturn PutOK; MainSelect; MainFinish]
         (w1, u0) = Some (w, u)
    /\ uexec tigrisBackend (hedge_finish (u_hedge u) PutOK) (w, u) = Some (w', u')
    /\ u_hedge u' = HExit /\ u_cancelled u' = true.
Proof.
  assert (Hrun : exists w1 u0 w u,
             Upload StoredGzip.writer tigrisBackend "abc" hello (Some plain) world0
             = (w1, inr u0)
             /\ uexec tigrisBackend
                  [MainCall; HedgeStart; HedgeTimer; MainReturn PutOK; MainSelect; MainFinish]
                  (w1, u0) = Some (w, u)
             /\ u_main u = MReturned None).
  { eexists _, _, _, _. split; [reflexivity |]. split; vm_compute; reflexivity. }
  destruct Hrun as (w1 & u0 & w & u & Hup & Hrun & Hm).
  assert (Hpast : match u_main u with MFinish _ | MReturned _ => True | _ => False end).
  { rewrite Hm. exact I. }
  destruct (hedge_goroutine_finishes _ _ _ _ _ _ _ _ _ _ _ PutOK Hup Hrun Hpast)
    as (w' & u' & Hfin & Hexit & Hcanc & _).
  exists w1, u0, w, u, w', u'. auto.
Defined.

(** ** The observed sizes are exact *)

Section Float64Exact.

Local Open Scope Z_scope.

Lemma iter_xO_value (p k : positive) :
  Z.pos (Pos.iter xO p k) = Z.pos p * 2 ^ Z.pos k.
Proof.
  induction k as [|k IH] using Pos.peano_ind.
  - simpl. lia.
  - rewrite Pos.iter_succ, Pos2Z.inj_xO, IH, Pos2Z.inj_succ, Z.pow_succ_r by lia. lia.
Qed.

Lemma binary_round_aux_exact (sx : bool) (m : positive) (e : Z) :
  Z.pos (digits2_pos m) = 53 -> -1074 <= e <= 971 ->
  binary_round_aux 53 1024 sx (Z.pos m) e loc_Exact = S754_finite sx m e.
Proof.
  intros Hd He.
  assert (Hs : shr_fexp 53 1024 (Z.pos m) e loc_Exact
               = ({| shr_m := Z.pos m; shr_r := false; shr_s := false |}, e)).
  { unfold shr_fexp, Zdigits2. rewrite Hd.
    replace (fexp 53 1024 (53 + e) - e) with 0 by (unfold fexp, emin; lia).
    reflexivity. }
  unfold binary_round_aux. rewrite Hs. simpl. rewrite Hs. simpl.
  change (1024 - 53) with 971. destruct (Z.leb_spec e 971); [reflexivity | lia].
Qed.

(** The value that [Upload] observes on [uploadSize], and the operands of
    the quotient it observes on [compressRatio], are exact for every
    length below 2^53: float64 of a positive [n] is the finite number
    [m * 2^e] with [e <= 0] and [m = n * 2^(-e)], and float64 of zero is
    plus zero. *)
Theorem float64_of_len_exact (b : bytes) :
  len b < 2 ^ 53 ->
  match b with
  | [] => float64_of_int (len b) = S754_zero false
  | _ :: _ =>
      exists m e,
        float64_of_int (len b) = S754_finite false m e
        /\ e <= 0 /\ Z.pos m = len b * 2 ^ (- e)
  end.
Proof.
  intros Hlt. destruct b as [|x b]; [reflexivity |].
  assert (Hpos : 0 < len (x :: b)) by (unfold len; simpl; lia).
  revert Hpos Hlt. generalize (len (x :: b)). intros n Hpos Hlt.
  destruct n as [|p|p]; try lia.
  unfold float64_of_int, binary_normalize, binary_round, shl_align.
  assert (Hd : 1 <= Z.pos (digits2_pos p) <= 53).
  { rewrite digits2_log2. pose proof (Z.log2_nonneg (Z.pos p)).
    pose proof (proj1 (Z.log2_lt_pow2 (Z.pos p) 53 Hpos) Hlt). lia. }
  replace (fexp 53 1024 (Z.pos (digits2_pos p) + 0))
    with (Z.pos (digits2_pos p) - 53) by (unfold fexp, emin; lia).
  destruct (Z.pos (digits2_pos p) - 53 - 0) as [|k|k] eqn:Hk; try lia.
  - rewrite binary_round_aux_exact by lia.
    exists p, 0. repeat split; simpl; lia.
  - rewrite binary_round_aux_exact.
    + exists (Pos.iter xO p k), (Z.pos (digits2_pos p) - 53).
      split; [reflexivity |]. split; [lia |].
      rewrite iter_xO_value. f_equal. f_equal. lia.
    + rewrite digits2_iter_xO. lia.
    + lia.
Qed.

Lemma float64_of_len_exact_witness :
  exists m e,
    float64_of_int (len hello) = S754_finite false m e
    /\ e <= 0 /\ Z.pos m = len hello * 2 ^ (- e).
Proof.
  apply (float64_of_len_exact hello). vm_compute. reflexivity.
Defined.

End Float64Exact.

(** ** List and the operations on the listed keys *)

Lemma List_loop_aligned (s : S3Backend) (prefix : string) (contents : list Object)
    (acc keys : list string) :
  List_loop s prefix contents acc = inr keys ->
  exists new,
    keys = acc ++ new
    /\ Forall2 (fun k o => obj_Key o = Some (keyPrefix s +:+ k)) new contents.
Proof.
  revert acc. induction contents as [|o rest IH]; intros acc H; simpl in H.
  - exists []. injection H as <-. rewrite app_nil_r. split; [reflexivity | constructor].
  - destruct (obj_Key o) as [key|] eqn:Hk; [| discriminate].
    destruct (HasPrefix key (keyPrefix s +:+ prefix)) eqn:Hp; [| discriminate].
    simpl in H. apply IH in H as (new & -> & Hall).
    apply TrimPrefix_keeps_prefix in Hp as [Hkey _].
    exists (TrimPrefix key (keyPrefix s) :: new). split.
    + now rewrite <- app_assoc.
    + constructor; [congruence | exact Hall].
Qed.

(** The keys that [List] returns address the listed objects: the key at
    position [i] of the result, given to [Fetch] or to [Delete], is sent
    as the very key that the response held at position [i]. *)
Theorem List_keys_address_listed_objects
    (gzipReader : stream -> gunzip_result) (s : S3Backend) (prefix : string)
    (remote : ListObjectsV2Input -> error + ListObjectsV2Output)
    (out : ListObjectsV2Output) (w : world) (keys : list string) (i : nat) (k : string) :
  remote {| list_Bucket := bucket s; list_Prefix := keyPrefix s +:+ prefix |} = inr out ->
  (List s prefix remote w).2 = inr keys ->
  keys !! i = Some k ->
  exists o listed,
    out_Contents out !! i = Some o
    /\ obj_Key o = Some listed
    /\ (forall get w', wire (Fetch gzipReader s k get w').1
                       = wire w' ++ [ReqGet {| get_Bucket := bucket s; get_Key := listed |}])
    /\ (forall del w', wire (Delete s k del w').1
                       = wire w' ++ [ReqDelete {| del_Bucket := bucket s; del_Key := listed |}]).
Proof.
  intros Hout. unfold List. rewrite Hout.
  destruct (List_loop s prefix (out_Contents out) []) as [err|ks] eqn:Hloop;
    simpl; [discriminate |].
  apply List_loop_aligned in Hloop as (new & -> & Hall). simpl.
  intros Hkeys Hi.
  assert (Hk : new !! i = Some k).
  { destruct (out_IsTruncated out) as [[]|]; simpl in Hkeys; simplify_eq; exact Hi. }
  destruct (Forall2_lookup_l _ _ _ _ _ Hall Hk) as (o & Ho & Hkey).
  exists o, (keyPrefix s +:+ k). split; [exact Ho |]. split; [exact Hkey |]. split.
  - intros get w'. unfold Fetch. repeat case_match; reflexivity.
  - intros del w'. unfold Delete. repeat case_match; reflexivity.
Qed.

Lemma List_keys_address_listed_objects_witness :
  exists o listed,
    out_Contents {| out_Contents := [ {| obj_Key := Some "log/tile/0" |};
                                      {| obj_Key := Some "log/tile/1" |} ];
                    out_IsTruncated := Some false |} !! 1 = Some o
    /\ obj_Key o = Some listed
    /\ (forall get w', wire (Fetch StoredGzip.reader tigrisBackend "tile/1" get w').1
                       = wire w' ++ [ReqGet {| get_Bucket := "ct"; get_Key := listed |}])
    /\ (forall del w', wire (Delete tigrisBackend "tile/1" del w').1
                       = wire w' ++ [ReqDelete {| del_Bucket := "ct"; del_Key := listed |}]).
Proof.
  apply (List_keys_address_listed_objects StoredGzip.reader tigrisBackend "tile/"
           complete_listing _ world0 ["tile/0"; "tile/1"] 1 "tile/1").
  - reflexivity.
  - vm_compute. reflexivity.
  - reflexivity.
Defined.

(** ** The bucket outside the uploaded key *)

(** An upload writes under its own prefixed key only: whatever the replies
    and the interleaving, every other key of the bucket holds what it held
    before the call. *)
Theorem Upload_touches_only_its_key
    (gzipWriter : bytes -> gzip_result) (s : S3Backend) (key : string) (data : bytes)
    (opts : option UploadOptions) (w0 w1 w : world) (u0 u : ustate) (tr : list event)
    (other : string) :
  Upload gzipWriter s key data opts w0 = (w1, inr u0) ->
  uexec s tr (w1, u0) = Some (w, u) ->
  other <> keyPrefix s +:+ key ->
  objects w !! other = objects w0 !! other.
Proof.
  intros Hup Hrun Hne.
  apply Upload_inr in Hup as (f & Hp & -> & _).
  apply Upload_prepare_frame in Hp as (Hk & _ & _ & _ & Hw1).
  assert (Hobj : objects w1 = objects w0).
  { destruct (guarded Compress opts); [destruct Hw1 as (z & _ & _ & _ & ->) |
                                       destruct Hw1 as (_ & _ & ->)]; reflexivity. }
  rewrite <- Hobj.
  apply (uexec_invariant s _
           (fun _ st => u_frame st.2 = f
                        /\ objects st.1 !! other = objects w1 !! other)) in Hrun;
    [apply Hrun | split; reflexivity |].
  intros tr' [w2 u2] ev [w3 u3] _ [Hf IH] Hs. simpl in *.
  destruct u2 as [f' m h c ch]. simpl in *. subst f'.
  step_cases Hs; simplify_eq; (split; [reflexivity |]); try exact IH.
  all: unfold settle, putObject in *; repeat case_match; simplify_eq; try exact IH.
  all: simpl; rewrite lookup_insert_ne by congruence; exact IH.
Qed.

Lemma Upload_touches_only_its_key_witness :
  exists w1 u0 w u,
    Upload StoredGzip.writer tigrisBackend "abc" hello (Some plain) world0 = (w1, inr u0)
    /\ uexec tigrisBackend hedge_wins (w1, u0) = Some (w, u)
    /\ is_Some (objects w !! "log/abc")
    /\ objects w !! "log/abd" = None.
Proof.
  assert (Hrun : exists w1 u0 w u,
             Upload StoredGzip.writer tigrisBackend "abc" hello (Some plain) world0
             = (w1, inr u0)
             /\ uexec tigrisBackend hedge_wins (w1, u0) = Some (w, u)
             /\ is_Some (objects w !! "log/abc")).
  { eexists _, _, _, _. split; [reflexivity |]. split; [vm_compute; reflexivity |].
    vm_compute. eauto. }
  destruct Hrun as (w1 & u0 & w & u & Hup & Hrun & Hsome).
  exists w1, u0, w, u. split; [exact Hup |]. split; [exact Hrun |].
  split; [exact Hsome |].
  rewrite (Upload_touches_only_its_key _ _ _ _ _ _ _ _ _ _ _ "log/abd" Hup Hrun)
    by discriminate.
  reflexivity.
Defined.

(** ** The endpoint given to the constructor *)

(** For a backend made by [NewS3Backend], an immutable upload carries the
    If-Match header exactly when the endpoint argument is the Tigris URL,
    or is empty while the loaded configuration resolved the Tigris URL;
    a non-empty endpoint argument overrides the configuration. *)
Theorem NewS3Backend_decides_conditional_writes
    (cfgEndpoint : option string) (region bucket0 endpoint keyPrefix0 : string)
    (f : frame) (o : UploadOptions) :
  f_opts f = Some o ->
  Immutable o = true ->
  exists s q,
    NewS3Backend (inr cfgEndpoint) region bucket0 endpoint keyPrefix0 = inr s
    /\ putObject s f = Some q
    /\ put_Key (req_input q) = keyPrefix0 +:+ f_key f
    /\ put_Bucket (req_input q) = bucket0
    /\ req_headers q
       = if bool_decide (endpoint = tigris
                         \/ (endpoint = EmptyString /\ cfgEndpoint = Some tigris))
         then [("If-Match", EmptyString)] else [].
Proof.
  intros Hopts Him. unfold NewS3Backend, putObject. rewrite Hopts, Him.
  eexists _, _. split; [reflexivity |]. split; [reflexivity |]. simpl.
  split; [reflexivity |]. split; [reflexivity |].
  unfold endpoint_is. cbn [client BaseEndpoint].
  case_bool_decide as Hd.
  - destruct Hd as [-> | [-> ->]]; reflexivity.
  - destruct (String.eqb_spec endpoint EmptyString) as [->|Hne].
    + destruct cfgEndpoint as [e|]; [| reflexivity].
      destruct (String.eqb_spec e tigris) as [->|Hne']; [| reflexivity].
      exfalso. apply Hd. right. auto.
    + destruct (String.eqb_spec endpoint tigris) as [->|Hne']; [| reflexivity].
      exfalso. apply Hd. left. reflexivity.
Qed.

Lemma NewS3Backend_decides_conditional_writes_witness :
  exists s q,
    NewS3Backend (inr (Some "https://s3.example.com")) "auto" "ct" tigris "log/" = inr s
    /\ putObject s (Build_frame "abc" hello (Some immutable)
                      (Some "application/octet-stream") None
                      (Some "public, max-age=604800, immutable")) = Some q
    /\ req_headers q = [("If-Match", EmptyString)].
Proof.
  destruct (NewS3Backend_decides_conditional_writes (Some "https://s3.example.com")
              "auto" "ct" tigris "log/"
              (Build_frame "abc" hello (Some immutable)
                 (Some "application/octet-stream") None
                 (Some "public, max-age=604800, immutable"))
              immutable eq_refl eq_refl)
    as (s & q & Hs & Hq & _ & _ & Hh).
  exists s, q. split; [exact Hs |]. split; [exact Hq |]. exact Hh.
Defined.
